(** * The Vulkan query cache of yuzu: query slot pool and host counters

    Shallow embedding of [src/video_core/renderer_vulkan/vk_query_cache.cpp].

    The file has three classes: [QueryPool] (a pool of occlusion query slots
    that grows in chunks of [GROW_STEP]), [VKQueryCache] (one pool per query
    type) and [HostCounter] (the life of one query).  They call into three
    collaborators whose code is elsewhere: the [ResourcePool] base class that
    hands out tickets, the [VKScheduler] and the [VKDevice].  The collaborators
    are interfaces here (type classes), the three classes of the file are
    functions in a state-and-failure monad over one [World]. *)

From stdpp Require Import base numbers option list.

Local Open Scope Z_scope.

Set Default Proof Using "Type".

(** ** Scalars and Vulkan values *)

(** [static_cast<u32>(x)]: the value modulo 2^32. *)
Definition u32 (x : Z) : Z := Z.modulo x (2 ^ 32).

(** [VkQueryPool], a native handle. *)
Definition VkQueryPool : Type := Z.

(** [std::pair<VkQueryPool, u32>]: a slot, the native container and the
    offset in it. *)
Definition Query : Type := VkQueryPool * Z.

(** [VkResult], by its integer value; the constants below have the values
    the Vulkan headers give them. *)
Definition VkResult : Type := Z.
Definition VK_SUCCESS : VkResult := 0.
Definition VK_ERROR_DEVICE_LOST : VkResult := -4.

Definition VK_QUERY_RESULT_64_BIT : Z := 1.
Definition VK_QUERY_RESULT_WAIT_BIT : Z := 2.
Definition VK_QUERY_CONTROL_PRECISE_BIT : Z := 1.

Inductive VkQueryType := VK_QUERY_TYPE_OCCLUSION.

#[global] Instance VkQueryType_inhabited : Inhabited VkQueryType :=
  populate VK_QUERY_TYPE_OCCLUSION.

(** [VideoCore::QueryType]: the closed set of logical counter kinds, one at
    present. *)
Inductive QueryType := SamplesPassed.

(** [static_cast<std::size_t>(type)]. *)
Definition QueryType_index (type : QueryType) : nat :=
  match type with SamplesPassed => 0%nat end.

Definition QUERY_TARGETS : list VkQueryType := [VK_QUERY_TYPE_OCCLUSION].

Definition GetTarget (type : QueryType) : VkQueryType :=
  QUERY_TARGETS !!! QueryType_index type.

Record VkQueryPoolCreateInfo := {
  flags : Z;
  queryType : VkQueryType;
  queryCount : Z;
  pipelineStatistics : Z;
}.

Module vk.

(** [vk::QueryPool]: the owning wrapper of one native container; [*pool] is
    [handle].  The create info the container was made with is kept with it,
    [queryCount] is its capacity. *)
Record QueryPool := {
  handle : VkQueryPool;
  info : VkQueryPoolCreateInfo;
}.

End vk.

(** What the lambdas given to [VKScheduler::Record] put in the command
    buffer. *)
Inductive Command :=
| CmdResetQueryPoolEXT (pool : VkQueryPool) (first count : Z)
| CmdBeginQuery (pool : VkQueryPool) (query : Z) (flags : Z)
| CmdEndQuery (pool : VkQueryPool) (query : Z).

(** ** Failures *)

(** How a call ends when it does not return.  The [ASSERT] macro is declared
    in a header that is not among the sources; the spec calls a failed
    assertion a "fatal condition", so it ends the call (and the program) like
    the other failures, with the world as it is at that point. *)
Inductive Failure :=
| AssertionFailed               (* ASSERT(cond) with cond false *)
| VkException (result : VkResult)  (* throw vk::Exception(result) *)
| OutOfRange                    (* a vector read or written past its end *)
| OutOfFuel.                    (* the retry loop was cut short *)

Inductive Result (A : Type) :=
| Ok (a : A)
| Fail (f : Failure).
Arguments Ok {A} a.
Arguments Fail {A} f.

(** ** The collaborators *)

(** The [ResourcePool] base class of [QueryPool].  [CommitResource] hands out
    one ticket; it gives the new state of the base class, the
    [Allocate(begin, end)] call it made on the way, if any, and the ticket.
    [Allocate] only touches members of the derived class, so running it after
    the base class has finished is the same as running it in the middle. *)
Class TicketPool := {
  ResourcePool : Type;
  capacity : ResourcePool → nat;
  CommitResource : ResourcePool → ResourcePool * option (nat * nat) * nat;
}.

Class VKScheduler := {
  Scheduler : Type;
  CurrentTick : Scheduler → Z;
  Flush : Scheduler → Scheduler;
  RecordCommands : list Command → Scheduler → Scheduler;
}.

Class VKDevice := {
  Device : Type;
  CreateQueryPool : VkQueryPoolCreateInfo → Device → VkQueryPool * Device;
  GetQueryResults : Query → Z → Device → (VkResult * Z) * Device;
  ReportLoss : Device → Device;
}.

(** Calls that leave the file, in the order they are made, and the two entry
    points of the cache. *)
Inductive Event :=
| EvFlush
| EvRecord (cmds : list Command)
| EvCreateQueryPool (ci : VkQueryPoolCreateInfo)
| EvGetQueryResults (query : Query) (flags : Z)
| EvReportLoss
| EvAllocateQuery (type : QueryType)
| EvReserve (type : QueryType) (query : Query).

Section QueryCache.

(** [QueryPool::GROW_STEP], the growth increment: a constant of the class,
    declared in the header [vk_query_cache.h], which is not among the
    sources.  It is a parameter here; the theorems say what they need of
    it. *)
Context (GROW_STEP : nat).
Context `{TP : TicketPool} `{SCH : VKScheduler} `{DEV : VKDevice}.

(** ** State *)

(** The members of [QueryPool]; [device] is a reference and lives in the
    [World]. *)
Record QueryPool := {
  base : ResourcePool;
  type : QueryType;
  usage : list bool;
  pools : list vk.QueryPool;
}.

(** [VKQueryCache] with what its references point to.  [query_pools] is an
    array with one entry per query type; there is one query type. *)
Record World := {
  scheduler : Scheduler;
  device : Device;
  query_pools : QueryPool;
  trace : list Event;
}.

Definition set_base (b : ResourcePool) (p : QueryPool) : QueryPool :=
  {| base := b; type := type p; usage := usage p; pools := pools p |}.
Definition set_usage (u : list bool) (p : QueryPool) : QueryPool :=
  {| base := base p; type := type p; usage := u; pools := pools p |}.
Definition set_pools (ps : list vk.QueryPool) (p : QueryPool) : QueryPool :=
  {| base := base p; type := type p; usage := usage p; pools := ps |}.

Definition set_scheduler (s : Scheduler) (w : World) : World :=
  {| scheduler := s; device := device w; query_pools := query_pools w;
     trace := trace w |}.
Definition set_device (d : Device) (w : World) : World :=
  {| scheduler := scheduler w; device := d; query_pools := query_pools w;
     trace := trace w |}.
Definition set_query_pools (p : QueryPool) (w : World) : World :=
  {| scheduler := scheduler w; device := device w; query_pools := p;
     trace := trace w |}.
Definition set_trace (t : list Event) (w : World) : World :=
  {| scheduler := scheduler w; device := device w;
     query_pools := query_pools w; trace := t |}.

(** ** The monad: state passing with failure *)

Definition M (A : Type) : Type := World → Result A * World.

#[global] Instance M_ret : MRet M := λ A a w, (Ok a, w).
#[global] Instance M_bind : MBind M := λ A B k m w,
  match m w with
  | (Ok a, w') => k a w'
  | (Fail f, w') => (Fail f, w')
  end.

Definition throw {A} (f : Failure) : M A := λ w, (Fail f, w).
Definition get_pool : M QueryPool := λ w, (Ok (query_pools w), w).
Definition modify_pool (f : QueryPool → QueryPool) : M unit :=
  λ w, (Ok (), set_query_pools (f (query_pools w)) w).
Definition emit (e : Event) : M unit :=
  λ w, (Ok (), set_trace (trace w ++ [e]) w).

Definition call_scheduler (f : Scheduler → Scheduler) : M unit :=
  λ w, (Ok (), set_scheduler (f (scheduler w)) w).
Definition call_device {A} (f : Device → A * Device) : M A :=
  λ w, let '(a, d) := f (device w) in (Ok a, set_device d w).

(** Calls on the collaborators. *)
Definition Scheduler_CurrentTick : M Z :=
  λ w, (Ok (CurrentTick (scheduler w)), w).
Definition Scheduler_Flush : M unit :=
  _ ← emit EvFlush; call_scheduler Flush.
Definition Scheduler_Record (cmds : list Command) : M unit :=
  _ ← emit (EvRecord cmds); call_scheduler (RecordCommands cmds).
Definition Device_CreateQueryPool (ci : VkQueryPoolCreateInfo) : M vk.QueryPool :=
  _ ← emit (EvCreateQueryPool ci);
  h ← call_device (CreateQueryPool ci);
  mret {| vk.handle := h; vk.info := ci |}.
Definition Device_GetQueryResults (query : Query) (fl : Z) : M (VkResult * Z) :=
  _ ← emit (EvGetQueryResults query fl);
  call_device (GetQueryResults query fl).
Definition Device_ReportLoss : M unit :=
  _ ← emit EvReportLoss; call_device (λ d, ((), ReportLoss d)).

(** ** QueryPool *)

(** [QueryPool::Allocate(begin, end)]. *)
Definition QueryPool_Allocate (begin end_ : nat) : M unit :=
  _ ← modify_pool (λ p, set_usage (resize end_ false (usage p)) p);
  p ← get_pool;
  pool ← Device_CreateQueryPool
    {| flags := 0;
       queryType := GetTarget (type p);
       queryCount := u32 (Z.of_nat end_ - Z.of_nat begin);
       pipelineStatistics := 0 |};
  modify_pool (λ p, set_pools (pools p ++ [pool]) p).

(** [CommitResource()] as [QueryPool] sees it: the base class moves on and
    the growth it asked for is carried out by [Allocate]. *)
Definition QueryPool_CommitResource : M nat :=
  p ← get_pool;
  let '(b, grow, index) := CommitResource (base p) in
  _ ← modify_pool (set_base b);
  _ ← match grow with
      | Some (begin, end_) => QueryPool_Allocate begin end_
      | None => mret ()
      end;
  mret index.

(** The [do ... while (usage[index])] loop of [QueryPool::Commit]; [fuel]
    bounds the number of tickets requested.  Reading [usage] past its end is
    undefined in C++ and a failure here. *)
Fixpoint Commit_loop (fuel : nat) : M nat :=
  match fuel with
  | O => throw OutOfFuel
  | S fuel' =>
      index ← QueryPool_CommitResource;
      p ← get_pool;
      match usage p !! index with
      | None => throw OutOfRange
      | Some true => Commit_loop fuel'
      | Some false => mret index
      end
  end.

(** [QueryPool::Commit()]. *)
Definition QueryPool_Commit (fuel : nat) : M Query :=
  index ← Commit_loop fuel;
  _ ← modify_pool (λ p, set_usage (<[index := true]> (usage p)) p);
  p ← get_pool;
  match pools p !! (index / GROW_STEP)%nat with
  | None => throw OutOfRange
  | Some pool =>
      mret (vk.handle pool, u32 (Z.of_nat (index mod GROW_STEP)%nat))
  end.

(** [QueryPool::Reserve(query)].  [std::find_if] gives the first container
    whose handle is [query.first].  The index is computed on 64-bit integers
    from a position in [pools], [GROW_STEP] and a 32-bit offset, which does
    not wrap around for an index within the vector; writing outside the
    vector is undefined in C++ and a failure here. *)
Definition QueryPool_Reserve (query : Query) : M unit :=
  p ← get_pool;
  match list_find (λ pool, query.1 = vk.handle pool) (pools p) with
  | None => throw AssertionFailed
  | Some (pool_index, _) =>
      let i := Z.of_nat pool_index * Z.of_nat GROW_STEP + query.2 in
      if decide (0 ≤ i < Z.of_nat (length (usage p)))
      then modify_pool (λ p, set_usage (<[Z.to_nat i := false]> (usage p)) p)
      else throw OutOfRange
  end.

(** ** VKQueryCache *)

(** [VKQueryCache::AllocateQuery(type)]: [query_pools[type].Commit()]. *)
Definition VKQueryCache_AllocateQuery (fuel : nat) (type : QueryType) : M Query :=
  _ ← emit (EvAllocateQuery type);
  QueryPool_Commit fuel.

(** [VKQueryCache::Reserve(type, query)]: [query_pools[type].Reserve(query)]. *)
Definition VKQueryCache_Reserve (type : QueryType) (query : Query) : M unit :=
  _ ← emit (EvReserve type query);
  QueryPool_Reserve query.

(** ** HostCounter *)

(** The members of [HostCounter]; [dependency] is the shared pointer kept by
    its base class, [cache] is a reference to the [World]. *)
#[local] Unset Elimination Schemes.
Inductive HostCounter := mkHostCounter {
  dependency : option HostCounter;
  counter_type : QueryType;
  query : Query;
  tick : Z;
}.
#[local] Set Elimination Schemes.

(** [HostCounter::HostCounter(cache, dependency, type)]. *)
Definition HostCounter_new (fuel : nat) (dependency : option HostCounter)
    (type : QueryType) : M HostCounter :=
  query ← VKQueryCache_AllocateQuery fuel type;
  tick ← Scheduler_CurrentTick;
  _ ← Scheduler_Record
        [CmdResetQueryPoolEXT query.1 query.2 1;
         CmdBeginQuery query.1 query.2 VK_QUERY_CONTROL_PRECISE_BIT];
  mret {| dependency := dependency; counter_type := type; query := query;
          tick := tick |}.

(** [HostCounter::~HostCounter()]. *)
Definition HostCounter_delete (this : HostCounter) : M unit :=
  VKQueryCache_Reserve (counter_type this) (query this).

(** [HostCounter::EndQuery()]. *)
Definition HostCounter_EndQuery (this : HostCounter) : M unit :=
  Scheduler_Record [CmdEndQuery (query this).1 (query this).2].

(** [HostCounter::BlockingQuery()]. *)
Definition HostCounter_BlockingQuery (this : HostCounter) : M Z :=
  current ← Scheduler_CurrentTick;
  _ ← (if decide (current ≤ tick this) then Scheduler_Flush else mret ());
  '(result, data) ← Device_GetQueryResults (query this)
                      (Z.lor VK_QUERY_RESULT_64_BIT VK_QUERY_RESULT_WAIT_BIT);
  if decide (result = VK_SUCCESS) then mret data
  else if decide (result = VK_ERROR_DEVICE_LOST) then
    _ ← Device_ReportLoss; throw (VkException result)
  else throw (VkException result).

(** The create info that [Allocate(begin, end_)] gives the device, as a
    function of the world it is called in. *)
Definition create_info (w : World) (begin end_ : nat) : VkQueryPoolCreateInfo :=
  {| flags := 0; queryType := GetTarget (type (query_pools w));
     queryCount := u32 (Z.of_nat end_ - Z.of_nat begin);
     pipelineStatistics := 0 |}.

(** ** Runs of the pool *)

(** Commits in a row, nothing released in between.  The state of the base
    class also moves between two calls, when the device catches up with
    submitted work: [outside] has one such move per commit, made before it. *)
Fixpoint QueryPool_Commits (fuel : nat)
    (outside : list (ResourcePool → ResourcePool)) : M (list Query) :=
  match outside with
  | [] => mret []
  | f :: outside' =>
      _ ← modify_pool (λ p, set_base (f (base p)) p);
      q ← QueryPool_Commit fuel;
      qs ← QueryPool_Commits fuel outside';
      mret (q :: qs)
  end.

(** The tickets of one run of the retry loop: [skipped] were handed out and
    found in use, [index] is the first one found free, in the world [w']. *)
Inductive retried : World → list nat → nat → World → Prop :=
| retried_free w index w' :
    QueryPool_CommitResource w = (Ok index, w') →
    usage (query_pools w') !! index = Some false →
    retried w [] index w'
| retried_used w i w1 skipped index w' :
    QueryPool_CommitResource w = (Ok i, w1) →
    usage (query_pools w1) !! i = Some true →
    retried w1 skipped index w' →
    retried w (i :: skipped) index w'.

(** What a counter does between its construction and its destruction. *)
Inductive CounterCall := CallEndQuery | CallBlockingQuery.

(** The calls are made one after the other; a call that throws leaves the
    world as it was at the throw and the counter alive. *)
Fixpoint HostCounter_calls (this : HostCounter) (calls : list CounterCall)
    (w : World) : World :=
  match calls with
  | [] => w
  | CallEndQuery :: calls' =>
      HostCounter_calls this calls' (HostCounter_EndQuery this w).2
  | CallBlockingQuery :: calls' =>
      HostCounter_calls this calls' (HostCounter_BlockingQuery this w).2
  end.

(** ** What the pool expects of the ticket pool *)

(** The tickets handed out by [n] requests in a row, up to the first one
    that makes the pool grow. *)
Fixpoint reissued (n : nat) (t : ResourcePool) : list nat :=
  match n with
  | O => []
  | S n' =>
      match CommitResource t with
      | (t', None, i) => i :: reissued n' t'
      | (_, Some _, _) => []
      end
  end.

(** The ticket pool grows by whole chunks of [GROW_STEP] placed at the end of
    what it has, and a ticket is an index into what it has. *)
Class TicketPoolLaws := {
  tp_ok : ResourcePool → Prop;
  tp_grow t t' begin end_ i :
    tp_ok t → CommitResource t = (t', Some (begin, end_), i) →
    begin = capacity t ∧ end_ = (begin + GROW_STEP)%nat ∧
    capacity t' = end_ ∧ (begin ≤ i < end_)%nat ∧ tp_ok t';
  tp_reuse t t' i :
    tp_ok t → CommitResource t = (t', None, i) →
    capacity t' = capacity t ∧ (i < capacity t)%nat ∧ tp_ok t';
}.

(** Between two growths no ticket is handed out twice, so that once every
    index has been visited the next request grows the pool. *)
Definition never_reissues `{TicketPoolLaws} : Prop :=
  ∀ n t, tp_ok t → NoDup (reissued n t).

(** The moves of the base class between two commits that the pool can live
    with: they keep what the ticket pool promises and its capacity. *)
Definition harmless `{TicketPoolLaws} (f : ResourcePool → ResourcePool) : Prop :=
  ∀ t, tp_ok t → tp_ok (f t) ∧ capacity (f t) = capacity t.

(** ** The invariant of the pool *)

Definition total_capacity (p : QueryPool) : Z :=
  foldr Z.add 0 ((λ c, queryCount (vk.info c)) <$> pools p).

(** The sequence of used-bits is as long as the containers are large
    together, and every container has [GROW_STEP] slots. *)
Definition sizes_ok (p : QueryPool) : Prop :=
  Z.of_nat (length (usage p)) = total_capacity p ∧
  Forall (λ c, queryCount (vk.info c) = Z.of_nat GROW_STEP) (pools p).

Definition pool_ok `{TicketPoolLaws} (p : QueryPool) : Prop :=
  tp_ok (base p) ∧
  length (usage p) = capacity (base p) ∧
  sizes_ok p.

(** ** Reading the trace *)

(** The flags of the fetch made by [BlockingQuery]. *)
Definition fetch_flags : Z :=
  Z.lor VK_QUERY_RESULT_64_BIT VK_QUERY_RESULT_WAIT_BIT.

Definition is_reserve (e : Event) : bool :=
  match e with EvReserve _ _ => true | _ => false end.

Definition is_fetch (e : Event) : bool :=
  match e with EvGetQueryResults _ _ => true | _ => false end.

(** What a call added to the trace. *)
Definition new_events (w w' : World) : list Event :=
  drop (length (trace w)) (trace w').

(** [quiet w w']: from [w] to [w'] the trace has grown, by calls none of
    which is a [Reserve]. *)
Definition quiet (w w' : World) : Prop :=
  ∃ events, trace w' = trace w ++ events ∧
            Forall (λ e, is_reserve e = false) events.

End QueryCache.

Arguments QueryPool {TP}.
Arguments tp_ok {GROW_STEP TP TicketPoolLaws} t.
Arguments tp_grow {GROW_STEP TP TicketPoolLaws} t t' begin end_ i.
Arguments tp_reuse {GROW_STEP TP TicketPoolLaws} t t' i.
Arguments World {TP SCH DEV}.

(** ** Construction, runs of calls, and what is read off a state *)

Section Construction.

Context (GROW_STEP : nat).
Context `{TP : TicketPool} `{SCH : VKScheduler} `{DEV : VKDevice}.

(** [QueryPool::QueryPool(device, scheduler, type)].  The base class is
    built first, from the master semaphore of the scheduler and [GROW_STEP];
    [base0] is the state its constructor leaves (that constructor is not
    among the sources).  [usage] and [pools] have no initializer: they start
    empty. *)
Definition QueryPool_new (base0 : ResourcePool) (type_ : QueryType)
    : QueryPool :=
  {| base := base0; type := type_; usage := []; pools := [] |}.

(** [VKQueryCache::VKQueryCache(...)]: the references to the device and the
    scheduler, and [query_pools] with its one pool, of type [SamplesPassed].
    Nothing has been called yet. *)
Definition VKQueryCache_new (s : Scheduler) (d : Device)
    (base0 : ResourcePool) : World :=
  {| scheduler := s; device := d;
     query_pools := QueryPool_new base0 SamplesPassed; trace := [] |}.

(** A call on the pool, or a move of the base class made from outside. *)
Inductive PoolCall :=
| CallCommit
| CallReserve (query : Query)
| CallOutside (f : ResourcePool → ResourcePool).

(** Calls made one after the other; the first failure ends the run.  The
    slots returned by the commits are collected. *)
Fixpoint QueryPool_calls (fuel : nat) (calls : list PoolCall)
    : M (list Query) :=
  match calls with
  | [] => mret []
  | CallCommit :: calls' =>
      q ← QueryPool_Commit GROW_STEP fuel;
      qs ← QueryPool_calls fuel calls';
      mret (q :: qs)
  | CallReserve query :: calls' =>
      _ ← QueryPool_Reserve GROW_STEP query;
      QueryPool_calls fuel calls'
  | CallOutside f :: calls' =>
      _ ← modify_pool (λ p, set_base (f (base p)) p);
      QueryPool_calls fuel calls'
  end.

(** The moves made from outside in a run are all harmless. *)
Definition harmless_calls `{LAWS : !TicketPoolLaws GROW_STEP}
    (calls : list PoolCall) : Prop :=
  Forall (λ call, match call with
                  | CallOutside f => harmless GROW_STEP f
                  | _ => True
                  end) calls.

(** The number of slots marked used. *)
Definition used_slots (p : QueryPool) : nat :=
  length (filter (λ b : bool, b = true) (usage p)).

(** The commands recorded on the scheduler by the calls of a trace, in
    order. *)
Definition recorded (events : list Event) : list Command :=
  concat ((λ e, match e with EvRecord cmds => cmds | _ => [] end) <$> events).

Definition is_flush (e : Event) : bool :=
  match e with EvFlush => true | _ => false end.

(** The number of flushes in a trace. *)
Definition flushes (events : list Event) : nat :=
  length (List.filter is_flush events).

(** The commands that [calls] record for the counter [this]: one end of
    query per [EndQuery]. *)
Definition ended (this : HostCounter) (calls : list CounterCall)
    : list Command :=
  concat ((λ call, match call with
                   | CallEndQuery =>
                       [CmdEndQuery (query this).1 (query this).2]
                   | CallBlockingQuery => []
                   end) <$> calls).

(** Whether [calls] read the counter. *)
Definition reads (calls : list CounterCall) : bool :=
  existsb (λ call, match call with
                   | CallBlockingQuery => true
                   | CallEndQuery => false
                   end) calls.

End Construction.


(** ** Collaborators to run the code with *)

Module Reference.

(** Modelled from the spec: the growable ticket pool, that is the
    [ResourcePool] base class of [QueryPool] with its [CommitResource], whose
    source (vk_resource_pool.cpp) is not among the files at hand.  The spec
    says that it "issues monotonically increasing ticket indices, triggers a
    growth callback in fixed-size chunks when capacity is exhausted, and
    tracks which submission tick each ticket was issued in (for reclaiming
    tickets once the device has caught up)", that "tickets may cycle back to
    indices previously freed" and that the [begin] of a growth "is always a
    multiple of the growth increment".

    So the pool keeps one tick per ticket, and the place after the ticket it
    handed out last.  A ticket can be handed out again when the device has
    reached the tick it was handed out in.  A request looks for such a ticket
    from that place upwards, then from the start; it stamps the ticket it
    finds with the current tick.  When there is none the pool grows by one
    chunk and hands out the first ticket of the chunk. *)
Record Tickets := {
  ticks : list Z;
  free_iterator : nat;
  current_tick : Z;
  gpu_tick : Z;
}.

Definition IsFree (t : Tickets) (tick : Z) : Prop := tick ≤ gpu_tick t.

#[global] Instance IsFree_dec t tick : Decision (IsFree t tick).
Proof. unfold IsFree. apply _. Defined.

(** The first ticket of [begin, end_) that can be handed out again. *)
Definition search (t : Tickets) (begin end_ : nat) : option nat :=
  (λ found, (begin + found.1)%nat) <$>
    list_find (IsFree t) (take (end_ - begin) (drop begin (ticks t))).

Definition issue (i : nat) (ticks' : list Z) (t : Tickets) : Tickets :=
  {| ticks := <[i := current_tick t]> ticks';
     free_iterator := ((i + 1) mod length ticks')%nat;
     current_tick := current_tick t;
     gpu_tick := gpu_tick t |}.

(** Modelled from the spec: [ResourcePool::CommitResource], by the sentences
    quoted above. *)
Definition Tickets_CommitResource (grow_step : nat) (t : Tickets)
    : Tickets * option (nat * nat) * nat :=
  let found :=
    match search t (free_iterator t) (length (ticks t)) with
    | Some i => Some i
    | None => search t 0 (free_iterator t)
    end in
  match found with
  | Some i => (issue i (ticks t) t, None, i)
  | None =>
      let old_capacity := length (ticks t) in
      (issue old_capacity (resize (old_capacity + grow_step) 0 (ticks t)) t,
       Some (old_capacity, (old_capacity + grow_step)%nat),
       old_capacity)
  end.

Definition ticket_pool (grow_step : nat) : TicketPool :=
  {| ResourcePool := Tickets;
     capacity t := length (ticks t);
     CommitResource := Tickets_CommitResource grow_step |}.

(** The device moves on: the ticks are read again, the tickets stay. *)
Definition Refresh (current gpu : Z) (t : Tickets) : Tickets :=
  {| ticks := ticks t; free_iterator := free_iterator t;
     current_tick := current; gpu_tick := gpu |}.

(** The device never reaches the tick of the work still being recorded, and
    no tick is negative. *)
Definition Tickets_ok (t : Tickets) : Prop :=
  0 ≤ gpu_tick t < current_tick t.

(** Modelled from the spec: the scheduler, of which the spec gives
    [CurrentTick], [Flush] ("synchronously submits pending work") and
    [Record] ("appends a command-recording callback"); its tick is "a
    monotonically increasing submission counter". *)
Record Sched := {
  sched_tick : Z;
  pending : list Command;
  submitted : list Command;
}.

Definition sched : VKScheduler :=
  {| Scheduler := Sched;
     CurrentTick := sched_tick;
     Flush s := {| sched_tick := sched_tick s + 1; pending := [];
                   submitted := submitted s ++ pending s |};
     RecordCommands cmds s :=
       {| sched_tick := sched_tick s; pending := pending s ++ cmds;
          submitted := submitted s |} |}.

(** Modelled from the spec: the device, which "creates a native query-object
    container given a query kind and count", "fetches a query's result with
    wait semantics" and "reports unrecoverable device loss".  Handles are
    numbered from 1 in the order of creation; [answers] is what a fetch
    gives. *)
Record Dev := {
  created : list VkQueryPoolCreateInfo;
  answers : Query → VkResult * Z;
  losses : nat;
}.

Definition dev : VKDevice :=
  {| Device := Dev;
     CreateQueryPool ci d :=
       (Z.of_nat (S (length (created d))),
        {| created := created d ++ [ci]; answers := answers d;
           losses := losses d |});
     GetQueryResults query fl d := (answers d query, d);
     ReportLoss d :=
       {| created := created d; answers := answers d;
          losses := S (losses d) |} |}.

(** A pool that has not handed out anything yet. *)
Definition empty_tickets (current gpu : Z) : Tickets :=
  {| ticks := []; free_iterator := 0; current_tick := current;
     gpu_tick := gpu |}.

Definition empty_world (grow_step : nat) (current gpu : Z)
    (answers : Query → VkResult * Z)
    : @World (ticket_pool grow_step) sched dev :=
  @Build_World (ticket_pool grow_step) sched dev
    {| sched_tick := current; pending := []; submitted := [] |}
    {| created := []; answers := answers; losses := 0 |}
    (@Build_QueryPool (ticket_pool grow_step)
       (empty_tickets current gpu) SamplesPassed [] [])
    [].

(** The ticks read before a commit: the device is behind the scheduler. *)
Definition behind (s : Z * Z) : Prop := 0 ≤ s.2 < s.1.

Definition refreshes (sems : list (Z * Z)) : list (Tickets → Tickets) :=
  (λ s, Refresh s.1 s.2) <$> sems.

(** The world after the ticks have been read again. *)
Definition refreshed (grow_step : nat) `{SCH : VKScheduler} `{DEV : VKDevice}
    (s : Z * Z) (w : @World (ticket_pool grow_step) SCH DEV)
    : @World (ticket_pool grow_step) SCH DEV :=
  set_query_pools
    (@set_base (ticket_pool grow_step)
       (Refresh s.1 s.2 (base (query_pools w))) (query_pools w)) w.

(** The pool after [k] commits, with [1 ≤ k ≤ grow_step]: one container
    [c0], the first [k] bits used, the tickets from [k] on never handed
    out. *)
Definition filled (grow_step : nat) (c0 : vk.QueryPool) (k : nat)
    (p : @QueryPool (ticket_pool grow_step)) : Prop :=
  usage p = replicate k true ++ replicate (grow_step - k) false ∧
  pools p = [c0] ∧
  queryCount (vk.info c0) = Z.of_nat grow_step ∧
  length (ticks (base p)) = grow_step ∧
  (∀ i, (k ≤ i < grow_step)%nat → ticks (base p) !! i = Some 0) ∧
  free_iterator (base p) = (k mod grow_step)%nat.

End Reference.

(** ** Worlds to try the code on *)

Module Example.

Import Reference.

(** A device that answers every fetch with [status] and the value 42. *)
Definition answering (status : VkResult) : Query → VkResult * Z :=
  λ _, (status, 42).

(** Nothing committed yet; chunks of 2. *)
Definition empty : @World (ticket_pool 2) sched dev :=
  empty_world 2 1 0 (answering VK_SUCCESS).

Definition container : vk.QueryPool :=
  {| vk.handle := 1;
     vk.info := {| flags := 0; queryType := VK_QUERY_TYPE_OCCLUSION;
                   queryCount := 2; pipelineStatistics := 0 |} |}.

(** One container with both slots in use, both handed out in tick 1; the
    scheduler is at tick 3 and the device has reached tick 2. *)
Definition busy (status : VkResult) : @World (ticket_pool 2) sched dev :=
  @Build_World (ticket_pool 2) sched dev
    {| sched_tick := 3; pending := []; submitted := [] |}
    {| created := [vk.info container]; answers := answering status;
       losses := 0 |}
    (@Build_QueryPool (ticket_pool 2)
       {| ticks := [1; 1]; free_iterator := 0; current_tick := 3;
          gpu_tick := 2 |}
       SamplesPassed [true; true] [container])
    [].

(** The counter that the constructor builds in [empty]. *)
Definition first_counter : HostCounter :=
  {| dependency := None; counter_type := SamplesPassed; query := (1, 0);
     tick := 1 |}.

(** A counter that holds the second slot of [busy]. *)
Definition counter (tick : Z) : HostCounter :=
  {| dependency := None; counter_type := SamplesPassed; query := (1, 1);
     tick := tick |}.

End Example.


(** * Properties *)

Ltac run := unfold mbind, mret, M_bind, M_ret, throw, get_pool, modify_pool,
  emit, call_scheduler, call_device; simpl.

Lemma u32_small x : 0 ≤ x < 2 ^ 32 → u32 x = x.
Proof. intros. unfold u32. by apply Z.mod_small. Qed.

Lemma Forall2_NoDup {A B} (R : A → B → Prop) (l : list A) (k : list B) :
  (∀ a a' b, R a b → R a' b → a = a') →
  Forall2 R l k → NoDup l → NoDup k.
Proof.
  intros Hinj Hall. induction Hall as [|a b l k Hab Hall IH]; intros Hnodup.
  { constructor. }
  apply NoDup_cons in Hnodup as [Hnotin Hnodup].
  constructor; [|by apply IH].
  intros Hin. apply list_elem_of_lookup in Hin as [n Hn].
  destruct (Forall2_lookup_r _ _ _ _ _ Hall Hn) as (a' & Ha' & Ha'b).
  rewrite (Hinj _ _ _ Hab Ha'b) in Hnotin.
  apply Hnotin. by eapply list_elem_of_lookup_2.
Qed.

(** ** The calls one by one *)

Section Calls.

Context (GROW_STEP : nat).
Context `{TP : TicketPool} `{SCH : VKScheduler} `{DEV : VKDevice}.

Abbreviation Commit := (QueryPool_Commit GROW_STEP).
Abbreviation Reserve := (QueryPool_Reserve GROW_STEP).

Lemma Allocate_run begin end_ w :
  ∃ w' c,
    QueryPool_Allocate begin end_ w = (Ok (), w') ∧
    base (query_pools w') = base (query_pools w) ∧
    type (query_pools w') = type (query_pools w) ∧
    usage (query_pools w') = resize end_ false (usage (query_pools w)) ∧
    pools (query_pools w') = pools (query_pools w) ++ [c] ∧
    vk.info c = create_info w begin end_ ∧
    (vk.handle c, device w') = CreateQueryPool (create_info w begin end_) (device w) ∧
    scheduler w' = scheduler w ∧
    trace w' = trace w ++ [EvCreateQueryPool (create_info w begin end_)].
Proof.
  unfold QueryPool_Allocate, Device_CreateQueryPool, create_info. run.
  destruct (CreateQueryPool _ (device w)) as [h d] eqn:E.
  eexists _, _. split; [reflexivity|]. simpl. repeat split.
Qed.

Lemma CommitResource_run w :
  ∃ w',
    QueryPool_CommitResource w =
      (Ok (CommitResource (base (query_pools w))).2, w') ∧
    base (query_pools w') = (CommitResource (base (query_pools w))).1.1 ∧
    type (query_pools w') = type (query_pools w) ∧
    scheduler w' = scheduler w ∧
    match (CommitResource (base (query_pools w))).1.2 with
    | None =>
        usage (query_pools w') = usage (query_pools w) ∧
        pools (query_pools w') = pools (query_pools w) ∧
        device w' = device w ∧ trace w' = trace w
    | Some (begin, end_) =>
        usage (query_pools w') = resize end_ false (usage (query_pools w)) ∧
        ∃ c, pools (query_pools w') = pools (query_pools w) ++ [c] ∧
             vk.info c = create_info w begin end_ ∧
             (vk.handle c, device w') =
               CreateQueryPool (create_info w begin end_) (device w) ∧
             trace w' = trace w ++ [EvCreateQueryPool (create_info w begin end_)]
    end.
Proof.
  unfold QueryPool_CommitResource. run.
  destruct (CommitResource (base (query_pools w))) as [[t' grow] i]. simpl.
  destruct grow as [[begin end_]|]; run.
  - destruct (Allocate_run begin end_
      (set_query_pools (set_base t' (query_pools w)) w))
      as (w' & c & -> & Hb & Ht & Hu & Hp & Hi & Hd & Hs & Htr).
    exists w'. simpl in *. repeat split; try done. eauto 10.
  - eexists. repeat split.
Qed.

Lemma CommitResource_reuse w t' i :
  CommitResource (base (query_pools w)) = (t', None, i) →
  QueryPool_CommitResource w =
    (Ok i, set_query_pools (set_base t' (query_pools w)) w).
Proof. intros Hticket. unfold QueryPool_CommitResource. run. by rewrite Hticket. Qed.

(** A commit whose first ticket is an index the pool has, with a free bit. *)
Lemma Commit_first_free fuel w t' i c :
  CommitResource (base (query_pools w)) = (t', None, i) →
  usage (query_pools w) !! i = Some false →
  pools (query_pools w) !! (i / GROW_STEP)%nat = Some c →
  Commit (S fuel) w =
    (Ok (vk.handle c, u32 (Z.of_nat (i mod GROW_STEP)%nat)),
     set_query_pools
       {| base := t'; type := type (query_pools w);
          usage := <[i := true]> (usage (query_pools w));
          pools := pools (query_pools w) |} w).
Proof.
  intros Hticket Hfree Hc.
  unfold QueryPool_Commit. simpl. run.
  rewrite (CommitResource_reuse _ _ _ Hticket). simpl. rewrite Hfree. simpl.
  by rewrite Hc.
Qed.

Lemma Reserve_run q w :
  Reserve q w =
    match list_find (λ pool, q.1 = vk.handle pool) (pools (query_pools w)) with
    | None => (Fail AssertionFailed, w)
    | Some (pool_index, _) =>
        let i := Z.of_nat pool_index * Z.of_nat GROW_STEP + q.2 in
        if decide (0 ≤ i < Z.of_nat (length (usage (query_pools w))))
        then (Ok (),
              set_query_pools
                (set_usage (<[Z.to_nat i := false]> (usage (query_pools w)))
                   (query_pools w)) w)
        else (Fail OutOfRange, w)
    end.
Proof.
  unfold QueryPool_Reserve. run.
  destruct (list_find _ _) as [[k c]|]; [|done].
  by destruct (decide _).
Qed.

(** C6.  [Reserve(q)] with a handle that is the handle of no container of the
    pool fails with the assertion, and the world, with every used-bit, is as
    it was.  When [pool_index] is the position of the first container that
    has the handle and the flat index [pool_index * GROW_STEP + q.2] is
    within the sequence of used-bits, [Reserve] returns, the bit at that
    index is cleared and no other bit is changed. *)
Theorem Reserve_unowned_asserts q w :
  ((∀ c, c ∈ pools (query_pools w) → vk.handle c ≠ q.1) →
   QueryPool_Reserve GROW_STEP q w = (Fail AssertionFailed, w)) ∧
  (∀ pool_index c i,
     pools (query_pools w) !! pool_index = Some c →
     vk.handle c = q.1 →
     (∀ j c', (j < pool_index)%nat →
        pools (query_pools w) !! j = Some c' → vk.handle c' ≠ q.1) →
     0 ≤ q.2 →
     i = (pool_index * GROW_STEP + Z.to_nat q.2)%nat →
     (i < length (usage (query_pools w)))%nat →
     ∃ w',
       QueryPool_Reserve GROW_STEP q w = (Ok (), w') ∧
       usage (query_pools w') = <[i := false]> (usage (query_pools w)) ∧
       usage (query_pools w') !! i = Some false ∧
       (∀ j, j ≠ i →
          usage (query_pools w') !! j = usage (query_pools w) !! j) ∧
       pools (query_pools w') = pools (query_pools w)).
Proof.
  split.
  - intros Hnone. rewrite Reserve_run.
    destruct (list_find _ _) as [[k c]|] eqn:Hfind; [|done].
    apply list_find_Some in Hfind as (Hc & Hh & _).
    destruct (Hnone c); [|done]. by eapply list_elem_of_lookup_2.
  - intros pool_index c i Hc Hh Hfirst Hoff -> Hi. rewrite Reserve_run.
    assert (list_find (λ pool, q.1 = vk.handle pool) (pools (query_pools w))
            = Some (pool_index, c)) as ->.
    { apply list_find_Some. split_and!; [done..|].
      intros j c' Hc' Hlt Heq. by eapply Hfirst. }
    simpl. destruct (decide _) as [_|Hout]; [|lia].
    replace (Z.to_nat (Z.of_nat pool_index * Z.of_nat GROW_STEP + q.2))
      with (pool_index * GROW_STEP + Z.to_nat q.2)%nat by lia.
    eexists. split; [reflexivity|]. simpl. split_and!; [done| |intros j Hj|done].
    + by apply list_lookup_insert_eq.
    + by apply list_lookup_insert_ne.
Qed.

(** C10.  [Reserve] of a slot of the pool whose used-bit is already clear
    returns without failure and leaves the world as it is; so a second
    [Reserve] of a slot, made right after the first, is accepted and changes
    nothing. *)
Theorem Reserve_idempotent q w :
  (∀ pool_index c i,
     list_find (λ pool, q.1 = vk.handle pool) (pools (query_pools w))
       = Some (pool_index, c) →
     i = Z.of_nat pool_index * Z.of_nat GROW_STEP + q.2 →
     0 ≤ i →
     usage (query_pools w) !! Z.to_nat i = Some false →
     QueryPool_Reserve GROW_STEP q w = (Ok (), w)) ∧
  (∀ w', QueryPool_Reserve GROW_STEP q w = (Ok (), w') → QueryPool_Reserve GROW_STEP q w' = (Ok (), w')).
Proof.
  assert (∀ w pool_index c i,
     list_find (λ pool, q.1 = vk.handle pool) (pools (query_pools w))
       = Some (pool_index, c) →
     i = Z.of_nat pool_index * Z.of_nat GROW_STEP + q.2 →
     0 ≤ i →
     usage (query_pools w) !! Z.to_nat i = Some false →
     Reserve q w = (Ok (), w)) as Hfree.
  { clear w. intros w pool_index c i Hfind -> Hpos Hbit.
    rewrite Reserve_run, Hfind. simpl.
    pose proof (lookup_lt_Some _ _ _ Hbit) as Hlt.
    destruct (decide _) as [_|Hout]; [|lia].
    rewrite list_insert_id by done.
    by destruct w as [s d [b t u ps] tr]. }
  split; [by apply Hfree|].
  intros w' Hres. rewrite Reserve_run in Hres.
  destruct (list_find _ _) as [[k c]|] eqn:Hfind; [|done]. simpl in Hres.
  destruct (decide _) as [Hin|]; [|done]. injection Hres as <-.
  eapply (Hfree _ k c); simpl; [done|reflexivity|lia|].
  apply list_lookup_insert_eq. lia.
Qed.

(** [BlockingQuery] step by step: the flush, when there is one, the fetch,
    and what is made of its status. *)
Lemma BlockingQuery_run this w :
  let flush := bool_decide (CurrentTick (scheduler w) ≤ tick this) in
  let fetched := GetQueryResults (query this) fetch_flags (device w) in
  let result := fetched.1.1 in
  let lost := bool_decide (result = VK_ERROR_DEVICE_LOST) in
  HostCounter_BlockingQuery this w =
    (if decide (result = VK_SUCCESS) then Ok fetched.1.2
     else Fail (VkException result),
     {| scheduler :=
          if flush then Flush (scheduler w) else scheduler w;
        device := if lost then ReportLoss fetched.2 else fetched.2;
        query_pools := query_pools w;
        trace := trace w ++ (if flush then [EvFlush] else []) ++
                 [EvGetQueryResults (query this) fetch_flags] ++
                 (if lost then [EvReportLoss] else []) |}).
Proof.
  unfold HostCounter_BlockingQuery, Scheduler_CurrentTick, Scheduler_Flush,
    Device_GetQueryResults, Device_ReportLoss, fetch_flags.
  run.
  destruct (GetQueryResults _ _ (device w)) as [[result data] d] eqn:E.
  assert (VK_SUCCESS ≠ VK_ERROR_DEVICE_LOST) as Hne by done.
  destruct (decide (CurrentTick (scheduler w) ≤ tick this)) as [Hf|Hf];
    [rewrite (bool_decide_eq_true_2 _ Hf)|rewrite (bool_decide_eq_false_2 _ Hf)];
    run; rewrite E; simpl;
    (destruct (decide (result = VK_SUCCESS)) as [Hs|Hs];
     [subst result; rewrite bool_decide_eq_false_2 by done; simpl;
      by rewrite <- ?app_assoc, ?app_nil_r
     |destruct (decide (result = VK_ERROR_DEVICE_LOST)) as [Hl|Hl];
      [rewrite (bool_decide_eq_true_2 _ Hl)|rewrite (bool_decide_eq_false_2 _ Hl)];
      run; by rewrite <- ?app_assoc, ?app_nil_r]).
Qed.

(** C3.  [BlockingQuery] calls [Flush] exactly when the tick of the counter
    is at least the current tick of the scheduler, read when the call starts.
    When the tick of the counter is smaller, the first call made is the
    fetch; otherwise the flush comes first and the fetch second. *)
Theorem BlockingQuery_flushes_iff this w :
  let w' := (HostCounter_BlockingQuery this w).2 in
  trace w' = trace w ++ new_events w w' ∧
  (EvFlush ∈ new_events w w' ↔ (CurrentTick (scheduler w) ≤ tick this)) ∧
  ((tick this < CurrentTick (scheduler w)) →
   head (new_events w w') = Some (EvGetQueryResults (query this) fetch_flags) ∧
   scheduler w' = scheduler w) ∧
  (CurrentTick (scheduler w) ≤ tick this →
   take 2 (new_events w w') =
     [EvFlush; EvGetQueryResults (query this) fetch_flags] ∧
   scheduler w' = Flush (scheduler w)).
Proof.
  pose proof (BlockingQuery_run this w) as Hrun. simpl in Hrun.
  simpl. rewrite Hrun. clear Hrun. unfold new_events. simpl.
  rewrite drop_app_length.
  destruct (decide (CurrentTick (scheduler w) ≤ tick this)) as [Hf|Hf].
  - rewrite (bool_decide_eq_true_2 _ Hf). simpl. split_and!; try done.
    + split; [done|]. intros _. apply list_elem_of_here.
    + lia.
  - rewrite (bool_decide_eq_false_2 _ Hf). simpl. split_and!; try done.
    split; [|done]. intros Hin.
    apply elem_of_cons in Hin as [Hin|Hin]; [done|].
    destruct (bool_decide _); simpl in Hin.
    + apply elem_of_cons in Hin as [Hin|Hin]; [done|].
      by apply not_elem_of_nil in Hin.
    + by apply not_elem_of_nil in Hin.
Qed.

(** C4.  What [BlockingQuery] makes of the status of the fetch.  On success
    it returns the value fetched and reports no loss.  On a lost device it
    calls [ReportLoss], its last call, and then throws the exception of that
    status.  On any other status it throws the exception of the status and
    reports no loss.  The fetch is made once, whatever the status, and every
    status but success ends in an exception. *)
Theorem BlockingQuery_result this w :
  let fetched := GetQueryResults (query this) fetch_flags (device w) in
  let result := fetched.1.1 in
  let r := (HostCounter_BlockingQuery this w).1 in
  let w' := (HostCounter_BlockingQuery this w).2 in
  (result = VK_SUCCESS →
   r = Ok fetched.1.2 ∧ (EvReportLoss ∉ new_events w w') ∧
   device w' = fetched.2) ∧
  (result = VK_ERROR_DEVICE_LOST →
   r = Fail (VkException VK_ERROR_DEVICE_LOST) ∧
   last (new_events w w') = Some EvReportLoss ∧
   device w' = ReportLoss fetched.2) ∧
  (result ≠ VK_SUCCESS → result ≠ VK_ERROR_DEVICE_LOST →
   r = Fail (VkException result) ∧ (EvReportLoss ∉ new_events w w') ∧
   device w' = fetched.2) ∧
  List.filter is_fetch (new_events w w') =
    [EvGetQueryResults (query this) fetch_flags] ∧
  (result ≠ VK_SUCCESS → r = Fail (VkException result)).
Proof.
  pose proof (BlockingQuery_run this w) as Hrun. simpl in Hrun.
  simpl. rewrite Hrun. clear Hrun. unfold new_events. simpl.
  rewrite drop_app_length.
  destruct (GetQueryResults _ _ (device w)) as [[result data] d]. simpl.
  assert (∀ flush : bool,
    EvReportLoss ∉ (if flush then [EvFlush] else []) ++
      [EvGetQueryResults (query this) fetch_flags]) as Hnoloss.
  { intros flush Hin. apply elem_of_app in Hin as [Hin|Hin].
    - destruct flush; [|by apply not_elem_of_nil in Hin].
      apply elem_of_cons in Hin as [Hin|Hin]; [done|].
      by apply not_elem_of_nil in Hin.
    - apply elem_of_cons in Hin as [Hin|Hin]; [done|].
      by apply not_elem_of_nil in Hin. }
  split_and!.
  - intros ->. rewrite decide_True by done.
    rewrite (bool_decide_eq_false_2 (VK_SUCCESS = _)) by done. simpl.
    split_and!; [done|apply Hnoloss|done].
  - intros ->. rewrite decide_False by done.
    rewrite (bool_decide_eq_true_2 (VK_ERROR_DEVICE_LOST = _)) by done.
    split_and!; try done.
    by rewrite last_app.
  - intros Hs Hl. rewrite decide_False by done.
    rewrite (bool_decide_eq_false_2 (result = _)) by done. simpl.
    split_and!; [done|apply Hnoloss|done].
  - by destruct (bool_decide (_ ≤ _)), (bool_decide (result = _)).
  - intros Hs. by rewrite decide_False.
Qed.

Lemma quiet_refl w : quiet w w.
Proof. exists []. by rewrite app_nil_r. Qed.

Lemma quiet_trans w1 w2 w3 : quiet w1 w2 → quiet w2 w3 → quiet w1 w3.
Proof.
  intros (e1 & H1 & F1) (e2 & H2 & F2). exists (e1 ++ e2). split.
  - by rewrite H2, H1, app_assoc.
  - by apply Forall_app.
Qed.

Lemma quiet_step w w' e :
  trace w' = trace w ++ [e] → is_reserve e = false → quiet w w'.
Proof. intros Htr He. exists [e]. split; [done|]. by constructor. Qed.

Lemma quiet_same w w' : trace w' = trace w → quiet w w'.
Proof. intros Htr. exists []. by rewrite app_nil_r. Qed.

Create HintDb quiet.
#[local] Hint Resolve quiet_refl quiet_same quiet_step : quiet.

Lemma quiet_CommitResource w : quiet w (QueryPool_CommitResource w).2.
Proof.
  destruct (CommitResource_run w) as (w' & -> & _ & _ & _ & Hcase). simpl.
  destruct ((CommitResource (base (query_pools w))).1.2) as [[begin end_]|].
  - destruct Hcase as (_ & c & _ & _ & _ & Htr). eauto with quiet.
  - destruct Hcase as (_ & _ & _ & Htr). eauto with quiet.
Qed.

Lemma quiet_Commit_loop fuel w : quiet w (Commit_loop fuel w).2.
Proof.
  revert w. induction fuel as [|fuel IH]; intros w; [auto with quiet|].
  simpl. unfold mbind at 1, M_bind at 1.
  pose proof (quiet_CommitResource w) as Hstep.
  destruct (QueryPool_CommitResource w) as [[index|f] w1]; [|done]. run.
  destruct (usage (query_pools w1) !! index) as [[|]|]; try done.
  eapply quiet_trans; [exact Hstep|apply IH].
Qed.

Lemma quiet_Commit fuel w : quiet w (Commit fuel w).2.
Proof.
  unfold QueryPool_Commit. unfold mbind at 1, M_bind at 1.
  pose proof (quiet_Commit_loop fuel w) as Hloop.
  destruct (Commit_loop fuel w) as [[index|f] w1]; [|done]. run.
  by destruct (pools (query_pools w1) !! _).
Qed.

Lemma quiet_call this call w :
  quiet w (HostCounter_calls this [call] w).
Proof.
  destruct call; simpl.
  - by eapply quiet_step.
  - rewrite BlockingQuery_run. simpl. eexists. split; [done|].
    destruct (bool_decide (_ ≤ _)), (bool_decide (_ = _)); simpl;
      by repeat constructor.
Qed.

Lemma quiet_calls this calls w : quiet w (HostCounter_calls this calls w).
Proof.
  revert w. induction calls as [|call calls IH]; intros w; [apply quiet_refl|].
  eapply quiet_trans; [apply (quiet_call this call)|].
  destruct call; apply IH.
Qed.

Lemma quiet_no_reserve w w' :
  quiet w w' → List.filter is_reserve (new_events w w') = [].
Proof.
  intros (events & Htr & Hall). unfold new_events.
  rewrite Htr, drop_app_length. clear Htr.
  induction Hall as [|e events He _ IH]; simpl; [done|]. by rewrite He.
Qed.

(** C5.  A counter built by the constructor holds the slot that
    [AllocateQuery] returned to the constructor.  Neither the constructor nor
    any sequence of [EndQuery] and [BlockingQuery] calls, the empty one
    included, makes a [Reserve] call; the destructor makes exactly one, for
    the type of the counter and that slot. *)
Theorem HostCounter_delete_reserves_once fuel dep ty w this w1 calls :
  HostCounter_new GROW_STEP fuel dep ty w = (Ok this, w1) →
  let w2 := HostCounter_calls this calls w1 in
  let w3 := (HostCounter_delete GROW_STEP this w2).2 in
  (∃ wa, VKQueryCache_AllocateQuery GROW_STEP fuel ty w = (Ok (query this), wa)) ∧
  counter_type this = ty ∧
  List.filter is_reserve (new_events w w2) = [] ∧
  new_events w2 w3 = [EvReserve ty (query this)] ∧
  List.filter is_reserve (new_events w w3) = [EvReserve ty (query this)].
Proof.
  intros Hnew. simpl.
  unfold HostCounter_new in Hnew. unfold mbind at 1, M_bind at 1 in Hnew.
  assert (quiet w (VKQueryCache_AllocateQuery GROW_STEP fuel ty w).2) as Halloc.
  { unfold VKQueryCache_AllocateQuery. run.
    eapply quiet_trans; [|apply quiet_Commit]. by eapply quiet_step. }
  destruct (VKQueryCache_AllocateQuery GROW_STEP fuel ty w) as [[q|f] wa];
    [|done].
  unfold Scheduler_CurrentTick, Scheduler_Record in Hnew. run.
  simpl in Hnew. injection Hnew as <- <-. simpl.
  set (this := {| dependency := dep; counter_type := ty; query := q;
                  tick := CurrentTick (scheduler wa) |}).
  set (w1 := set_scheduler _ _).
  assert (quiet w (HostCounter_calls this calls w1)) as Hquiet.
  { eapply quiet_trans; [exact Halloc|].
    eapply quiet_trans; [|apply quiet_calls]. by eapply quiet_step. }
  set (w2 := HostCounter_calls this calls w1) in *.
  assert (trace (HostCounter_delete GROW_STEP this w2).2
          = trace w2 ++ [EvReserve ty q]) as Hdel.
  { unfold HostCounter_delete, VKQueryCache_Reserve. run.
    rewrite Reserve_run. simpl.
    destruct (list_find _ _) as [[k c]|]; [|done]. simpl.
    by destruct (decide _). }
  split_and!; try done.
  - by exists wa.
  - by apply quiet_no_reserve.
  - unfold new_events. by rewrite Hdel, drop_app_length.
  - destruct Hquiet as (events & Htr & Hall). unfold new_events.
    rewrite Hdel, Htr, <- app_assoc, drop_app_length.
    clear Htr. induction Hall as [|e events He _ IH]; simpl; [done|].
    by rewrite He.
Qed.

(** A commit whose first ticket comes with a growth, and is an index of the
    new container. *)
Lemma Commit_first_grown fuel w t' begin end_ i :
  CommitResource (base (query_pools w)) = (t', Some (begin, end_), i) →
  resize end_ false (usage (query_pools w)) !! i = Some false →
  (i / GROW_STEP)%nat = length (pools (query_pools w)) →
  ∃ c w',
    Commit (S fuel) w =
      (Ok (vk.handle c, u32 (Z.of_nat (i mod GROW_STEP)%nat)), w') ∧
    vk.info c = create_info w begin end_ ∧
    base (query_pools w') = t' ∧
    usage (query_pools w') =
      <[i := true]> (resize end_ false (usage (query_pools w))) ∧
    pools (query_pools w') = pools (query_pools w) ++ [c].
Proof.
  intros Hticket Hfree Hdiv.
  destruct (CommitResource_run w) as (w1 & Hrun & Hb & _ & _ & Hcase).
  rewrite Hticket in Hrun, Hb, Hcase. simpl in Hrun, Hb, Hcase.
  destruct Hcase as (Hu & c & Hp & Hinfo & _).
  exists c. eexists. split_and!; [|exact Hinfo|..].
  - unfold QueryPool_Commit. simpl. run. rewrite Hrun. simpl.
    rewrite Hu, Hfree. simpl.
    by rewrite Hp, Hdiv, lookup_app_r, Nat.sub_diag.
  - done.
  - simpl. by rewrite Hu.
  - done.
Qed.

Lemma Commits_cons fuel f outside w :
  QueryPool_Commits GROW_STEP fuel (f :: outside) w =
    match Commit fuel
            (set_query_pools
               (set_base (f (base (query_pools w))) (query_pools w)) w) with
    | (Ok q, w1) =>
        match QueryPool_Commits GROW_STEP fuel outside w1 with
        | (Ok qs, w2) => (Ok (q :: qs), w2)
        | (Fail e, w2) => (Fail e, w2)
        end
    | (Fail e, w1) => (Fail e, w1)
    end.
Proof.
  simpl. run. destruct (Commit fuel _) as [[q|e] w1]; [|done].
  by destruct (QueryPool_Commits GROW_STEP fuel outside w1) as [[qs|e] w2].
Qed.

End Calls.

(** ** The invariant of the pool and the retry loop *)

Section Invariant.

Context (GROW_STEP : nat).
Context `{TP : TicketPool} `{SCH : VKScheduler} `{DEV : VKDevice}.
Context `{LAWS : !TicketPoolLaws GROW_STEP}.
Hypothesis GROW_STEP_pos : (0 < GROW_STEP)%nat.
Hypothesis GROW_STEP_u32 : Z.of_nat GROW_STEP < 2 ^ 32.

#[local] Set Default Proof Using "GROW_STEP_pos GROW_STEP_u32".

Abbreviation Commit := (QueryPool_Commit GROW_STEP).
Abbreviation Reserve := (QueryPool_Reserve GROW_STEP).
Abbreviation Commits := (QueryPool_Commits GROW_STEP).

Lemma total_capacity_snoc (p : QueryPool) cs c :
  pools p = cs ++ [c] →
  total_capacity p =
    foldr Z.add 0 ((λ c, queryCount (vk.info c)) <$> cs) +
    queryCount (vk.info c).
Proof.
  unfold total_capacity. intros ->. rewrite fmap_app, foldr_app. simpl.
  generalize (queryCount (vk.info c)).
  induction cs as [|c' cs IH]; csimpl; intros z.
  - lia.
  - rewrite IH. lia.
Qed.

Lemma sizes_ok_length (p : QueryPool) :
  sizes_ok GROW_STEP p → length (usage p) = (length (pools p) * GROW_STEP)%nat.
Proof.
  intros [Hlen Hall]. unfold total_capacity in Hlen.
  assert (foldr Z.add 0 ((λ c, queryCount (vk.info c)) <$> pools p) =
          Z.of_nat (length (pools p) * GROW_STEP)) as E.
  { clear Hlen. induction Hall as [|c cs Hc _ IH]; csimpl; [done|].
    by rewrite IH, Hc, Nat2Z.inj_add. }
  lia.
Qed.

(** One ticket request keeps the invariant; the used-bits and the containers
    it finds stay, what it adds comes at the end. *)
Lemma CommitResource_ok w :
  pool_ok GROW_STEP (query_pools w) →
  ∃ w' k cs,
    QueryPool_CommitResource w =
      (Ok (CommitResource (base (query_pools w))).2, w') ∧
    pool_ok GROW_STEP (query_pools w') ∧
    base (query_pools w') = (CommitResource (base (query_pools w))).1.1 ∧
    usage (query_pools w') = usage (query_pools w) ++ replicate k false ∧
    pools (query_pools w') = pools (query_pools w) ++ cs ∧
    ((CommitResource (base (query_pools w))).2
       < length (usage (query_pools w')))%nat ∧
    match (CommitResource (base (query_pools w))).1.2 with
    | None => k = 0%nat ∧ cs = []
    | Some _ =>
        k = GROW_STEP ∧ length cs = 1%nat ∧
        (length (usage (query_pools w))
           ≤ (CommitResource (base (query_pools w))).2)%nat
    end.
Proof.
  intros (Hok & Hcap & Hsum & Hall).
  destruct (CommitResource_run w) as (w' & Hrun & Hb & Ht & _ & Hcase).
  destruct (CommitResource (base (query_pools w))) as [[t' grow] i] eqn:E.
  simpl in *. destruct grow as [[begin end_]|].
  - destruct (tp_grow _ _ _ _ _ Hok E) as (-> & -> & Hcap' & Hi & Hok').
    destruct Hcase as (Hu & c & Hp & Hinfo & _).
    assert (usage (query_pools w') =
            usage (query_pools w) ++ replicate GROW_STEP false) as Hu'.
    { rewrite Hu, resize_ge by lia. f_equal. f_equal. lia. }
    exists w', GROW_STEP, [c]. repeat split; try done.
    + by rewrite Hb.
    + rewrite Hb, Hu, length_resize. lia.
    + rewrite (total_capacity_snoc _ _ _ Hp), Hinfo. simpl.
      rewrite Hu, length_resize, u32_small by lia.
      unfold total_capacity in Hsum. lia.
    + rewrite Hp. apply Forall_app. split; [done|].
      constructor; [|done]. rewrite Hinfo. simpl. rewrite u32_small; lia.
    + rewrite Hu, length_resize. lia.
    + lia.
  - destruct (tp_reuse _ _ _ Hok E) as (Hcap' & Hi & Hok').
    destruct Hcase as (Hu & Hp & _).
    exists w', 0%nat, []. simpl. rewrite !app_nil_r.
    repeat split; try done; unfold total_capacity;
      rewrite ?Hb, ?Hu, ?Hp; try done; lia.
Qed.

Lemma reissued_bound n t :
  tp_ok t → Forall (λ i, (i < capacity t)%nat) (reissued n t).
Proof.
  revert t. induction n as [|n IH]; intros t Hok; simpl; [constructor|].
  destruct (CommitResource t) as [[t' grow] i] eqn:E.
  destruct grow; [constructor|].
  destruct (tp_reuse _ _ _ Hok E) as (Hcap & Hi & Hok').
  constructor; [done|]. rewrite <- Hcap. by apply IH.
Qed.

(** Tickets that are indices below the capacity and all different are at
    most as many as the capacity. *)
Lemma reissued_length n t :
  never_reissues GROW_STEP → tp_ok t →
  (length (reissued n t) ≤ capacity t)%nat.
Proof.
  intros Hfair Hok.
  rewrite <- (length_seq (capacity t) 0). apply submseteq_length.
  apply NoDup_submseteq; [by apply Hfair|].
  intros i Hi. apply elem_of_seq.
  pose proof (reissued_bound n t Hok) as Hall.
  rewrite Forall_forall in Hall. specialize (Hall i Hi). lia.
Qed.

Lemma retried_free_bit w skipped index w' :
  retried w skipped index w' →
  usage (query_pools w') !! index = Some false.
Proof. induction 1; done. Qed.

(** The retry loop: whatever the fuel, its world keeps the invariant; it
    ends with the first ticket found free, or it runs out of fuel after as
    many tickets, all handed out without growth. *)
Lemma Commit_loop_spec fuel w :
  pool_ok GROW_STEP (query_pools w) →
  ∃ r w' k cs,
    Commit_loop fuel w = (r, w') ∧
    pool_ok GROW_STEP (query_pools w') ∧
    usage (query_pools w') = usage (query_pools w) ++ replicate k false ∧
    pools (query_pools w') = pools (query_pools w) ++ cs ∧
    match r with
    | Ok index => ∃ skipped, retried w skipped index w'
    | Fail f =>
        f = OutOfFuel ∧
        (fuel ≤ length (reissued fuel (base (query_pools w))))%nat
    end.
Proof.
  revert w. induction fuel as [|fuel IH]; intros w Hok.
  { exists (Fail OutOfFuel), w, 0%nat, []. simpl. rewrite !app_nil_r.
    split_and!; done. }
  destruct (CommitResource_ok w Hok)
    as (w1 & k1 & cs1 & Hrun & Hok1 & Hb1 & Hu1 & Hp1 & Hlt & Hcase).
  simpl. unfold mbind at 1, M_bind at 1. rewrite Hrun.
  unfold mbind at 1, M_bind at 1, get_pool at 1. simpl.
  destruct (CommitResource (base (query_pools w))) as [[t' grow] i] eqn:E.
  simpl in *.
  destruct (lookup_lt_is_Some_2 _ _ Hlt) as [used Hused]. rewrite Hused.
  destruct used.
  - destruct (IH w1 Hok1) as (r & w' & k & cs & Hloop & Hok' & Hu & Hp & Hr).
    exists r, w', (k1 + k)%nat, (cs1 ++ cs). rewrite Hloop.
    split_and!; try done.
    + by rewrite Hu, Hu1, replicate_add, app_assoc.
    + by rewrite Hp, Hp1, app_assoc.
    + destruct r as [index|f].
      * destruct Hr as [skipped Hr]. exists (i :: skipped).
        by eapply retried_used.
      * destruct Hr as [-> Hlen]. split; [done|].
        destruct grow as [?|].
        -- destruct Hcase as (-> & _ & Hge).
           rewrite Hu1, length_app, length_replicate in Hlt.
           rewrite Hu1, lookup_app_r, lookup_replicate_2 in Hused by lia.
           done.
        -- subst t'. simpl. lia.
  - exists (Ok i), w1, k1, cs1. split_and!; try done.
    exists []. by apply retried_free.
Qed.

Lemma pool_ok_mark (p : QueryPool) i b :
  pool_ok GROW_STEP p → pool_ok GROW_STEP (set_usage (<[i := b]> (usage p)) p).
Proof.
  intros (Hok & Hcap & Hsum & Hall). unfold pool_ok, sizes_ok, total_capacity in *.
  simpl. by rewrite length_insert.
Qed.

Lemma container_of_index (p : QueryPool) i :
  sizes_ok GROW_STEP p → (i < length (usage p))%nat →
  ∃ c, pools p !! (i / GROW_STEP)%nat = Some c.
Proof.
  intros Hs Hi. apply lookup_lt_is_Some_2.
  rewrite (sizes_ok_length _ Hs) in Hi.
  apply Nat.Div0.div_lt_upper_bound. lia.
Qed.

(** [Commit]: whatever the fuel, its world keeps the invariant and the
    containers it found; when it returns, it returns the slot of the first
    ticket found free, with the bit of that ticket set. *)
Lemma Commit_spec fuel w :
  pool_ok GROW_STEP (query_pools w) →
  ∃ r w' cs,
    Commit fuel w = (r, w') ∧
    pool_ok GROW_STEP (query_pools w') ∧
    pools (query_pools w') = pools (query_pools w) ++ cs ∧
    match r with
    | Ok q =>
        ∃ skipped index w1 k c,
          retried w skipped index w1 ∧
          usage (query_pools w1) = usage (query_pools w) ++ replicate k false ∧
          w' = set_query_pools
                 (set_usage (<[index := true]> (usage (query_pools w1)))
                    (query_pools w1)) w1 ∧
          pools (query_pools w1) !! (index / GROW_STEP)%nat = Some c ∧
          q = (vk.handle c, u32 (Z.of_nat (index mod GROW_STEP)%nat))
    | Fail f =>
        f = OutOfFuel ∧
        (fuel ≤ length (reissued fuel (base (query_pools w))))%nat
    end.
Proof.
  intros Hok.
  destruct (Commit_loop_spec fuel w Hok)
    as (r & w1 & k & cs & Hloop & Hok1 & Hu & Hp & Hr).
  unfold QueryPool_Commit. unfold mbind at 1, M_bind at 1. rewrite Hloop.
  destruct r as [index|f].
  - destruct Hr as [skipped Hr].
    pose proof (retried_free_bit _ _ _ _ Hr) as Hfree.
    destruct (container_of_index (query_pools w1) index) as [c Hc].
    { apply Hok1. }
    { by eapply lookup_lt_Some. }
    run. rewrite Hc.
    eexists _, _, cs. split; [reflexivity|]. simpl. split_and!; try done.
    { by apply pool_ok_mark. }
    exists skipped, index, w1, k, c. by split_and!.
  - destruct Hr. exists (Fail f), w1, cs. by split_and!.
Qed.

(** The last ticket request of a run of the retry loop is made in a world
    with the used-bits and the containers the run started with. *)
Lemma retried_last w skipped index w' :
  pool_ok GROW_STEP (query_pools w) →
  retried w skipped index w' →
  ∃ wl,
    pool_ok GROW_STEP (query_pools wl) ∧
    usage (query_pools wl) = usage (query_pools w) ∧
    pools (query_pools wl) = pools (query_pools w) ∧
    QueryPool_CommitResource wl = (Ok index, w') ∧
    usage (query_pools w') !! index = Some false.
Proof.
  intros Hok Hret. induction Hret as [w index w' Hrun Hfree
                                     |w i w1 skipped index w' Hrun Hused _ IH].
  - by exists w.
  - destruct (CommitResource_ok w Hok)
      as (w1' & k & cs & Hrun' & Hok1 & _ & Hu & Hp & Hlt & Hcase).
    rewrite Hrun in Hrun'. injection Hrun' as Hi <-.
    destruct ((CommitResource (base (query_pools w))).1.2).
    + destruct Hcase as (-> & _ & Hge).
      rewrite Hu, length_app, length_replicate in Hlt.
      rewrite Hu, lookup_app_r, lookup_replicate_2 in Hused by lia. done.
    + destruct Hcase as [-> ->]. rewrite app_nil_r in Hu, Hp.
      destruct (IH Hok1) as (wl & Hokl & Hul & Hpl & Hlast & Hfree).
      exists wl. rewrite Hul, Hpl. by split_and!.
Qed.

(** The slot of a flat index made of a container position and an offset
    below [GROW_STEP]. *)
Lemma index_split k off :
  (off < GROW_STEP)%nat →
  ((k * GROW_STEP + off) / GROW_STEP = k)%nat ∧
  ((k * GROW_STEP + off) mod GROW_STEP = off)%nat.
Proof.
  intros Hoff. split.
  - rewrite Nat.div_add_l by lia. rewrite Nat.div_small by done. lia.
  - rewrite Nat.add_comm, Nat.Div0.mod_add. by apply Nat.mod_small.
Qed.

(** A commit made right after [Reserve(s)] returns [s] again when the first
    ticket it is handed is the one of [s]. *)
Lemma Commit_after_Reserve fuel w0 s w k c t' :
  Reserve s w0 = (Ok (), w) →
  list_find (λ pool, s.1 = vk.handle pool) (pools (query_pools w0))
    = Some (k, c) →
  0 ≤ s.2 < Z.of_nat GROW_STEP →
  CommitResource (base (query_pools w))
    = (t', None, (k * GROW_STEP + Z.to_nat s.2)%nat) →
  (0 < fuel)%nat →
  ∃ w', Commit fuel w = (Ok s, w').
Proof.
  intros Hres Hfind Hoff Hticket Hfuel.
  rewrite Reserve_run, Hfind in Hres. simpl in Hres.
  destruct (decide _) as [Hin|]; [|done].
  injection Hres as <-.
  replace (Z.to_nat (Z.of_nat k * Z.of_nat GROW_STEP + s.2))
    with (k * GROW_STEP + Z.to_nat s.2)%nat in * by lia.
  set (i := (k * GROW_STEP + Z.to_nat s.2)%nat) in *.
  set (w := set_query_pools _ w0) in *.
  destruct (CommitResource_run w) as (w1 & Hrun & _ & _ & _ & Hcase).
  rewrite Hticket in Hrun, Hcase. simpl in Hrun, Hcase.
  destruct Hcase as (Hu & Hp & _).
  assert (usage (query_pools w1) !! i = Some false) as Hfree.
  { rewrite Hu. subst w. simpl. apply list_lookup_insert_eq. lia. }
  apply list_find_Some in Hfind as (Hc & Hh & _).
  destruct (index_split k (Z.to_nat s.2)) as [Hdiv Hmod]; [lia|].
  destruct fuel as [|fuel]; [lia|].
  unfold QueryPool_Commit. simpl.
  unfold mbind at 1, M_bind at 1. unfold mbind at 1, M_bind at 1.
  rewrite Hrun. run. rewrite Hfree. simpl.
  fold i in Hdiv, Hmod. rewrite Hdiv, Hp. subst w. simpl. rewrite Hc.
  eexists. f_equal. f_equal. rewrite Hmod, u32_small by lia.
  destruct s as [h off]. simpl in *. f_equal; [done|lia].
Qed.

(** C1.  In a pool that satisfies its invariant, over a ticket pool that never
    hands out a ticket twice between two growths, [Commit] returns once it has
    more fuel than the pool has slots.  The tickets [skipped] were handed out
    and found in use; [index] is the first ticket found free.  The loop leaves
    the used-bits it found as they were ([k] new ones, all free, may follow
    them); the bit of [index] is free when the loop ends and is the one bit
    that [Commit] sets; the slot returned is the container at position
    [index / GROW_STEP] with the offset [index mod GROW_STEP].  So the slot
    returned is never one that is marked used.  It can be the slot [s] of a
    [Reserve(s)] made just before: it is, when the first ticket handed out is
    the one of [s]. *)
Theorem Commit_returns_free_slot fuel w :
  never_reissues GROW_STEP →
  pool_ok GROW_STEP (query_pools w) →
  (capacity (base (query_pools w)) < fuel)%nat →
  (∃ skipped index w1 k c,
     retried w skipped index w1 ∧
     usage (query_pools w1) = usage (query_pools w) ++ replicate k false ∧
     usage (query_pools w1) !! index = Some false ∧
     pools (query_pools w1) !! (index / GROW_STEP)%nat = Some c ∧
     Commit fuel w =
       (Ok (vk.handle c, Z.of_nat (index mod GROW_STEP)%nat),
        set_query_pools
          (set_usage (<[index := true]> (usage (query_pools w1)))
             (query_pools w1)) w1)) ∧
  (∀ w0 s pool_index c t',
     Reserve s w0 = (Ok (), w) →
     list_find (λ pool, s.1 = vk.handle pool) (pools (query_pools w0))
       = Some (pool_index, c) →
     0 ≤ s.2 < Z.of_nat GROW_STEP →
     CommitResource (base (query_pools w))
       = (t', None, (pool_index * GROW_STEP + Z.to_nat s.2)%nat) →
     ∃ w', Commit fuel w = (Ok s, w')).
Proof.
  intros Hfair Hok Hfuel. split.
  - destruct (Commit_spec fuel w Hok) as (r & w' & cs & Hrun & _ & _ & Hr).
    destruct r as [q|f].
    + destruct Hr as (skipped & index & w1 & k & c & Hret & Hu & -> & Hc & ->).
      exists skipped, index, w1, k, c. split_and!; try done.
      * by eapply retried_free_bit.
      * rewrite Hrun, u32_small; [done|].
        pose proof (Nat.mod_upper_bound index GROW_STEP). lia.
    + destruct Hr as [_ Hlen].
      pose proof (reissued_length fuel (base (query_pools w)) Hfair) as Hle.
      destruct Hok as [Hok _]. specialize (Hle Hok). lia.
  - intros w0 s pool_index c t' Hres Hfind Hoff Hticket.
    eapply Commit_after_Reserve; eauto. lia.
Qed.

(** C9.  The used-bits that [Allocate] adds are free: a bit at or after the
    old length and before [end_] reads [false] after the call.  So when the
    ticket pool grows by a chunk and hands out an index of the chunk once
    every index it had has been visited (it never hands out a ticket twice
    between two growths), the retry loop of [Commit] ends, in every pool that
    satisfies the invariant: more tickets than the pool has slots are never
    needed. *)
Theorem Commit_loop_terminates fuel w begin end_ i :
  ((length (usage (query_pools w)) ≤ i < end_)%nat →
   usage (query_pools (QueryPool_Allocate begin end_ w).2) !! i = Some false) ∧
  (never_reissues GROW_STEP →
   pool_ok GROW_STEP (query_pools w) →
   (capacity (base (query_pools w)) < fuel)%nat →
   ∃ index w',
     Commit_loop fuel w = (Ok index, w') ∧
     usage (query_pools w') !! index = Some false).
Proof.
  split.
  - intros Hi.
    destruct (Allocate_run begin end_ w) as (w' & c & -> & _ & _ & Hu & _).
    simpl. rewrite Hu. apply lookup_resize_new; lia.
  - intros Hfair Hok Hfuel.
    destruct (Commit_loop_spec fuel w Hok)
      as (r & w' & k & cs & Hrun & _ & _ & _ & Hr).
    destruct r as [index|f].
    + destruct Hr as [skipped Hr]. exists index, w'. split; [done|].
      by eapply retried_free_bit.
    + destruct Hr as [_ Hlen].
      pose proof (reissued_length fuel (base (query_pools w)) Hfair) as Hle.
      destruct Hok as [Hok _]. specialize (Hle Hok). lia.
Qed.

Lemma Reserve_ok q w :
  pool_ok GROW_STEP (query_pools w) →
  pool_ok GROW_STEP (query_pools (Reserve q w).2).
Proof.
  intros Hok. rewrite Reserve_run.
  destruct (list_find _ _) as [[k c]|]; [|done]. simpl.
  destruct (decide _); [|done]. simpl. by apply pool_ok_mark.
Qed.

(** C8.  A call [Allocate(begin, end_)] whose [begin] is the number of slots
    the pool has, with a chunk [end_ - begin] that fits the 32-bit count of a
    container, makes the sequence of used-bits [end_] long and creates one
    container, with [end_ - begin] slots, at the end of the containers; the
    length of the sequence stays the sum of the capacities of the containers,
    and with a chunk of [GROW_STEP] every container has [GROW_STEP] slots.
    [Commit] and [Reserve] keep the invariant of the pool, whatever they
    return.  Under the invariant the flat index [i] of a used-bit has its
    container at position [i / GROW_STEP] and the offset [i mod GROW_STEP] is
    within that container. *)
Theorem pool_invariant_preserved w begin end_ fuel q i :
  (begin = length (usage (query_pools w)) →
   (begin ≤ end_)%nat →
   Z.of_nat end_ - Z.of_nat begin < 2 ^ 32 →
   ∃ w' c,
     QueryPool_Allocate begin end_ w = (Ok (), w') ∧
     length (usage (query_pools w')) = end_ ∧
     pools (query_pools w') = pools (query_pools w) ++ [c] ∧
     queryCount (vk.info c) = Z.of_nat (end_ - begin) ∧
     new_events w w' = [EvCreateQueryPool (vk.info c)] ∧
     (Z.of_nat (length (usage (query_pools w))) = total_capacity (query_pools w) →
      Z.of_nat (length (usage (query_pools w'))) = total_capacity (query_pools w')) ∧
     (end_ = (begin + GROW_STEP)%nat →
      sizes_ok GROW_STEP (query_pools w) →
      sizes_ok GROW_STEP (query_pools w'))) ∧
  (pool_ok GROW_STEP (query_pools w) →
   pool_ok GROW_STEP (query_pools (Commit fuel w).2) ∧
   pool_ok GROW_STEP (query_pools (Reserve q w).2)) ∧
  (sizes_ok GROW_STEP (query_pools w) →
   (i < length (usage (query_pools w)))%nat →
   ∃ c, pools (query_pools w) !! (i / GROW_STEP)%nat = Some c ∧
        Z.of_nat (i mod GROW_STEP) < queryCount (vk.info c)).
Proof.
  split_and!.
  - intros Hbegin Hle Hfit.
    destruct (Allocate_run begin end_ w)
      as (w' & c & Hrun & _ & _ & Hu & Hp & Hinfo & _ & _ & Htr).
    assert (queryCount (vk.info c) = Z.of_nat (end_ - begin)) as Hcount.
    { rewrite Hinfo. simpl. rewrite u32_small; lia. }
    assert (Z.of_nat (length (usage (query_pools w))) = total_capacity (query_pools w) →
            Z.of_nat (length (usage (query_pools w'))) = total_capacity (query_pools w'))
      as Hsum.
    { intros Hsum. rewrite (total_capacity_snoc _ _ _ Hp), Hcount.
      rewrite Hu, length_resize. unfold total_capacity in Hsum. lia. }
    exists w', c. split_and!; try done.
    + by rewrite Hu, length_resize.
    + unfold new_events. rewrite Htr, drop_app_length. by rewrite Hinfo.
    + intros -> [Hs Hall]. split; [by apply Hsum|].
      rewrite Hp. apply Forall_app. split; [done|].
      constructor; [|done]. rewrite Hcount. f_equal. lia.
  - intros Hok. split; [|by apply Reserve_ok].
    destruct (Commit_spec fuel w Hok) as (r & w' & cs & -> & Hok' & _). done.
  - intros Hs Hi. destruct (container_of_index _ _ Hs Hi) as [c Hc].
    exists c. split; [done|].
    destruct Hs as [_ Hall]. rewrite Forall_lookup in Hall.
    rewrite (Hall _ _ Hc).
    pose proof (Nat.mod_upper_bound i GROW_STEP). lia.
Qed.

Lemma Commit_Ok fuel w q w' :
  pool_ok GROW_STEP (query_pools w) →
  Commit fuel w = (Ok q, w') →
  pool_ok GROW_STEP (query_pools w') ∧
  ∃ index k cs c,
    usage (query_pools w') =
      <[index := true]> (usage (query_pools w) ++ replicate k false) ∧
    (usage (query_pools w) ++ replicate k false) !! index = Some false ∧
    pools (query_pools w') = pools (query_pools w) ++ cs ∧
    pools (query_pools w') !! (index / GROW_STEP)%nat = Some c ∧
    q = (vk.handle c, Z.of_nat (index mod GROW_STEP)%nat).
Proof.
  intros Hok Hrun.
  destruct (Commit_spec fuel w Hok) as (r & w2 & cs & Hrun' & Hok' & Hp & Hr).
  rewrite Hrun in Hrun'. injection Hrun' as <- <-.
  split; [done|].
  destruct Hr as (skipped & index & w1 & k & c & Hret & Hu & -> & Hc & ->).
  pose proof (retried_free_bit _ _ _ _ Hret) as Hfree.
  exists index, k, cs, c. simpl in *. rewrite <- Hu. split_and!; try done.
  rewrite u32_small; [done|].
  pose proof (Nat.mod_upper_bound index GROW_STEP). lia.
Qed.

Lemma Commits_spec fuel outside w qs w' :
  pool_ok GROW_STEP (query_pools w) →
  Forall (harmless GROW_STEP) outside →
  Commits fuel outside w = (Ok qs, w') →
  pool_ok GROW_STEP (query_pools w') ∧
  (∃ cs, pools (query_pools w') = pools (query_pools w) ++ cs) ∧
  (∀ j, usage (query_pools w) !! j = Some true →
        usage (query_pools w') !! j = Some true) ∧
  ∃ indices,
    NoDup indices ∧
    Forall2 (λ i q,
      usage (query_pools w) !! i ≠ Some true ∧
      usage (query_pools w') !! i = Some true ∧
      ∃ c, pools (query_pools w') !! (i / GROW_STEP)%nat = Some c ∧
           q = (vk.handle c, Z.of_nat (i mod GROW_STEP)%nat)) indices qs.
Proof.
  revert w qs. induction outside as [|f outside IH]; intros w qs Hok Hout Hrun.
  { injection Hrun as <- <-. split_and!; try done.
    - exists []. by rewrite app_nil_r.
    - exists []. split; constructor. }
  apply Forall_cons in Hout as [Hf Hout].
  simpl in Hrun. unfold mbind at 1, M_bind at 1, modify_pool at 1 in Hrun.
  set (wf := set_query_pools _ w) in Hrun.
  assert (pool_ok GROW_STEP (query_pools wf)) as Hokf.
  { destruct Hok as (Ht & Hcap & Hs). destruct (Hf _ Ht) as [Ht' Hcap'].
    subst wf. split_and!; simpl; [done|by rewrite Hcap'|done]. }
  unfold mbind at 1, M_bind at 1 in Hrun.
  destruct (Commit fuel wf) as [[q|e] w1] eqn:Hcommit; [|done].
  unfold mbind at 1, M_bind at 1 in Hrun.
  destruct (Commits fuel outside w1) as [[qs'|e] w2] eqn:Hrest; [|done].
  injection Hrun as <- <-.
  destruct (Commit_Ok _ _ _ _ Hokf Hcommit)
    as (Hok1 & index & k & cs1 & c & Hu1 & Hfree & Hp1 & Hc & ->).
  destruct (IH _ _ Hok1 Hout Hrest)
    as (Hok2 & [cs2 Hp2] & Hmono & indices & Hnodup & Hall).
  change (usage (query_pools wf)) with (usage (query_pools w)) in *.
  change (pools (query_pools wf)) with (pools (query_pools w)) in *.
  pose proof (lookup_lt_Some _ _ _ Hfree) as Hlt.
  assert (usage (query_pools w1) !! index = Some true) as Hset.
  { rewrite Hu1. by apply list_lookup_insert_eq. }
  assert (∀ j, usage (query_pools w) !! j = Some true →
               usage (query_pools w1) !! j = Some true) as Hmono1.
  { intros j Hj. destruct (decide (j = index)) as [->|Hne]; [done|].
    rewrite Hu1, list_lookup_insert_ne by done.
    by apply lookup_app_l_Some. }
  split_and!; [done|..].
  - exists (cs1 ++ cs2). by rewrite Hp2, Hp1, app_assoc.
  - intros j Hj. by apply Hmono, Hmono1.
  - exists (index :: indices). split.
    + constructor; [|done]. intros Hin.
      apply list_elem_of_lookup in Hin as [n Hn].
      destruct (Forall2_lookup_l _ _ _ _ _ Hall Hn) as (q & _ & Hq & _).
      done.
    + constructor.
      * split_and!.
        -- intros Htrue. apply (lookup_app_l_Some _ (replicate k false)) in Htrue.
           congruence.
        -- by apply Hmono.
        -- exists c. split; [|done]. rewrite Hp2. by apply lookup_app_l_Some.
      * eapply Forall2_impl; [exact Hall|]. simpl.
        intros i q (Hi & Hi' & Hslot). split_and!; [|done..].
        intros Htrue. by apply Hi, Hmono1.
Qed.

(** C2.  The slots returned by commits made in a row on one pool, with no
    [Reserve] in between, are pairwise different (the device gives every
    container a handle of its own). *)
Theorem Commits_return_distinct_slots fuel outside w qs w' :
  pool_ok GROW_STEP (query_pools w) →
  Forall (harmless GROW_STEP) outside →
  Commits fuel outside w = (Ok qs, w') →
  NoDup (vk.handle <$> pools (query_pools w')) →
  NoDup qs.
Proof.
  intros Hok Hout Hrun Hhandles.
  destruct (Commits_spec _ _ _ _ _ Hok Hout Hrun)
    as (_ & _ & _ & indices & Hnodup & Hall).
  eapply Forall2_NoDup; [|exact Hall|exact Hnodup]. simpl.
  intros i j q (_ & _ & c & Hc & ->) (_ & _ & c' & Hc' & Heq).
  injection Heq as Hh Hmod.
  assert ((i / GROW_STEP)%nat = (j / GROW_STEP)%nat) as Hdiv.
  { eapply NoDup_lookup; [exact Hhandles|..].
    - by rewrite list_lookup_fmap, Hc.
    - by rewrite list_lookup_fmap, Hc', Hh. }
  rewrite (Nat.div_mod_eq i GROW_STEP), (Nat.div_mod_eq j GROW_STEP). lia.
Qed.

End Invariant.

(** * The reference ticket pool keeps the contract *)

Section ReferenceTickets.

Import Reference.

Context (GROW_STEP : nat).

Lemma search_Some t begin end_ i :
  search t begin end_ = Some i →
  (begin ≤ i < end_)%nat ∧
  ∃ tick, ticks t !! i = Some tick ∧ IsFree t tick.
Proof.
  unfold search. intros Hs.
  apply fmap_Some in Hs as ([n tick] & Hfind & ->). simpl.
  apply list_find_Some in Hfind as (Hn & Hfree & _).
  apply lookup_take_Some in Hn as [Hn Hlt]. rewrite lookup_drop in Hn.
  split; [lia|]. by exists tick.
Qed.

Lemma search_None t begin end_ j tick :
  search t begin end_ = None →
  (begin ≤ j < end_)%nat → ticks t !! j = Some tick → ¬ IsFree t tick.
Proof.
  unfold search. intros Hs Hj Htick.
  apply fmap_None in Hs. rewrite list_find_None in Hs.
  rewrite Forall_forall in Hs. apply Hs.
  apply list_elem_of_lookup. exists (j - begin)%nat.
  apply lookup_take_Some. split; [|lia].
  rewrite lookup_drop. by replace (begin + (j - begin))%nat with j by lia.
Qed.

(** The search finds the ticket it starts at when that one can be handed
    out. *)
Lemma search_hit t begin end_ tick :
  (begin < end_)%nat → ticks t !! begin = Some tick → IsFree t tick →
  search t begin end_ = Some begin.
Proof.
  intros Hlt Htick Hfree. unfold search.
  assert (list_find (IsFree t) (take (end_ - begin) (drop begin (ticks t)))
          = Some (0%nat, tick)) as ->.
  { apply list_find_Some. split_and!; [|done|intros; lia].
    apply lookup_take_Some. split; [|lia].
    by rewrite lookup_drop, Nat.add_0_r. }
  simpl. f_equal. lia.
Qed.

(** The two outcomes of a request. *)
Lemma Tickets_CommitResource_cases t :
  (∃ i tick,
     Tickets_CommitResource GROW_STEP t = (issue i (ticks t) t, None, i) ∧
     ticks t !! i = Some tick ∧ IsFree t tick) ∨
  (Tickets_CommitResource GROW_STEP t =
     (issue (length (ticks t))
        (resize (length (ticks t) + GROW_STEP) 0 (ticks t)) t,
      Some (length (ticks t), (length (ticks t) + GROW_STEP)%nat),
      length (ticks t)) ∧
   ∀ j tick, ticks t !! j = Some tick → ¬ IsFree t tick).
Proof.
  unfold Tickets_CommitResource.
  destruct (search t (free_iterator t) (length (ticks t))) as [i|] eqn:E1.
  { left. destruct (search_Some _ _ _ _ E1) as (_ & tick & Htick & Hfree).
    by exists i, tick. }
  destruct (search t 0 (free_iterator t)) as [i|] eqn:E2.
  { left. destruct (search_Some _ _ _ _ E2) as (_ & tick & Htick & Hfree).
    by exists i, tick. }
  right. split; [done|]. intros j tick Htick.
  pose proof (lookup_lt_Some _ _ _ Htick) as Hlt.
  destruct (decide (j < free_iterator t)%nat).
  - eapply (search_None _ _ _ j); [exact E2|lia|done].
  - eapply (search_None _ _ _ j); [exact E1|lia|done].
Qed.

Lemma Tickets_reuse t t' i :
  Tickets_ok t →
  Tickets_CommitResource GROW_STEP t = (t', None, i) →
  length (ticks t') = length (ticks t) ∧ (i < length (ticks t))%nat ∧
  Tickets_ok t'.
Proof.
  intros Hok Hrun.
  destruct (Tickets_CommitResource_cases t)
    as [(j & tick & Hrun' & Htick & _)|[Hrun' _]]; rewrite Hrun' in Hrun;
    [|done].
  injection Hrun as <- <-. simpl. rewrite length_insert.
  split_and!; [done| |done]. by eapply lookup_lt_Some.
Qed.

(** The tickets handed out before the next growth can all be handed out
    now, and none comes twice: a ticket handed out is stamped with the
    current tick, which the device has not reached. *)
Lemma Tickets_reissued n t :
  Tickets_ok t →
  NoDup (reissued (TP := ticket_pool GROW_STEP) n t) ∧
  ∀ i, i ∈ reissued (TP := ticket_pool GROW_STEP) n t →
       ∃ tick, ticks t !! i = Some tick ∧ IsFree t tick.
Proof.
  revert t. induction n as [|n IH]; intros t Hok.
  { split; [constructor|]. intros i Hi. by apply not_elem_of_nil in Hi. }
  simpl.
  destruct (Tickets_CommitResource_cases t)
    as [(i & tick & -> & Htick & Hfree)|[-> _]].
  2: { split; [constructor|]. intros i Hi. by apply not_elem_of_nil in Hi. }
  pose proof (lookup_lt_Some _ _ _ Htick) as Hlt.
  destruct (IH (issue i (ticks t) t)) as [Hnodup Hfrees]; [done|].
  assert (i ∉ reissued (TP := ticket_pool GROW_STEP) n (issue i (ticks t) t))
    as Hnotin.
  { intros Hin. destruct (Hfrees _ Hin) as (tick' & Htick' & Hfree').
    simpl in Htick'. rewrite list_lookup_insert_eq in Htick' by done.
    injection Htick' as <-. unfold IsFree, Tickets_ok in *. simpl in *. lia. }
  split; [by constructor|].
  intros j Hj. apply elem_of_cons in Hj as [->|Hj]; [by exists tick|].
  destruct (Hfrees _ Hj) as (tick' & Htick' & Hfree').
  exists tick'. split; [|done]. simpl in Htick'.
  rewrite list_lookup_insert_ne in Htick' by congruence. done.
Qed.

Hypothesis GROW_STEP_pos : (0 < GROW_STEP)%nat.

Lemma Tickets_grow t t' begin end_ i :
  Tickets_ok t →
  Tickets_CommitResource GROW_STEP t = (t', Some (begin, end_), i) →
  begin = length (ticks t) ∧ end_ = (begin + GROW_STEP)%nat ∧
  length (ticks t') = end_ ∧ (begin ≤ i < end_)%nat ∧ Tickets_ok t'.
Proof using GROW_STEP_pos.
  intros Hok Hrun.
  destruct (Tickets_CommitResource_cases t)
    as [(j & tick & Hrun' & _)|[Hrun' _]]; rewrite Hrun' in Hrun; [done|].
  injection Hrun as <- <- <- <-. simpl.
  rewrite length_insert, length_resize. split_and!; try done; lia.
Qed.

Definition Tickets_laws : @TicketPoolLaws GROW_STEP (ticket_pool GROW_STEP) :=
  @Build_TicketPoolLaws GROW_STEP (ticket_pool GROW_STEP)
    Tickets_ok Tickets_grow Tickets_reuse.

Lemma Tickets_never_reissues : never_reissues GROW_STEP (H := Tickets_laws).
Proof. intros n t Hok. by apply Tickets_reissued. Qed.

End ReferenceTickets.

(** * From the empty pool to the second container *)

Lemma mark_next k n :
  (k < n)%nat →
  <[k := true]> (replicate k true ++ replicate (n - k) false) =
  replicate (S k) true ++ replicate (n - S k) false.
Proof.
  intros Hlt.
  rewrite insert_app_r_alt by (rewrite length_replicate; lia).
  rewrite length_replicate, Nat.sub_diag.
  replace (n - k)%nat with (S (n - S k)) by lia. simpl.
  by rewrite cons_middle, app_assoc, <- replicate_cons_app.
Qed.

Section GrowthRun.

Import Reference.

Context (GROW_STEP : nat) `{SCH : VKScheduler} `{DEV : VKDevice}.
Hypothesis GROW_STEP_pos : (0 < GROW_STEP)%nat.
Hypothesis GROW_STEP_u32 : Z.of_nat GROW_STEP < 2 ^ 32.

#[local] Set Default Proof Using "GROW_STEP_pos GROW_STEP_u32".

Abbreviation World := (@World (ticket_pool GROW_STEP) SCH DEV).
Abbreviation LAWS := (Tickets_laws GROW_STEP GROW_STEP_pos).

Abbreviation Commit :=
  (QueryPool_Commit GROW_STEP (TP := ticket_pool GROW_STEP)).
Abbreviation Commits :=
  (QueryPool_Commits GROW_STEP (TP := ticket_pool GROW_STEP)).

(** A commit with [k < GROW_STEP] slots in use takes the next slot of the
    first container. *)
Lemma Commit_next fuel c0 k s (w : World) :
  (1 ≤ k < GROW_STEP)%nat → behind s → filled GROW_STEP c0 k (query_pools w) →
  ∃ w', Commit (S fuel) (refreshed GROW_STEP s w) = (Ok (vk.handle c0, Z.of_nat k), w') ∧
        filled GROW_STEP c0 (S k) (query_pools w').
Proof.
  intros Hk Hs (Hu & Hp & Hcount & Hlen & Hfresh & Hit).
  set (t := Refresh s.1 s.2 (base (query_pools w))).
  assert (CommitResource (base (query_pools (refreshed GROW_STEP s w)))
          = (issue k (ticks t) t, None, k)) as Hticket.
  { simpl. fold t. unfold Tickets_CommitResource.
    assert (search t (free_iterator t) (length (ticks t)) = Some k) as ->; [|done].
    subst t. simpl. rewrite Hit, Nat.mod_small, Hlen by lia.
    eapply search_hit; [lia|apply Hfresh; lia|]. unfold IsFree. simpl.
    unfold behind in Hs. lia. }
  eexists. split.
  - erewrite Commit_first_free; [|exact Hticket|..].
    + rewrite Nat.mod_small, u32_small by lia. reflexivity.
    + simpl. rewrite Hu, lookup_app_r by (rewrite length_replicate; lia).
      apply lookup_replicate_2. rewrite length_replicate. lia.
    + simpl. rewrite Nat.div_small, Hp by lia. done.
  - unfold filled. simpl. split_and!; try done.
    + rewrite Hu. apply mark_next. lia.
    + by rewrite length_insert.
    + intros i Hi. rewrite list_lookup_insert_ne by lia. apply Hfresh. lia.
    + by rewrite Hlen, Nat.add_1_r.
Qed.

(** The first commit of an empty pool makes the first container and takes
    its first slot. *)
Lemma Commit_first fuel s (w : World) :
  behind s →
  usage (query_pools w) = [] → pools (query_pools w) = [] →
  ticks (base (query_pools w)) = [] →
  ∃ c0 w',
    Commit (S fuel) (refreshed GROW_STEP s w) = (Ok (vk.handle c0, 0), w') ∧
    filled GROW_STEP c0 1 (query_pools w').
Proof.
  intros Hs Hu Hp Ht.
  set (t := Refresh s.1 s.2 (base (query_pools w))).
  assert (CommitResource (base (query_pools (refreshed GROW_STEP s w)))
          = (issue 0 (resize GROW_STEP 0 []) t,
             Some (0%nat, GROW_STEP), 0%nat)) as Hticket.
  { simpl. fold t. unfold Tickets_CommitResource, search. subst t. simpl.
    rewrite Ht. simpl. by rewrite ?drop_nil, ?take_nil. }
  destruct (Commit_first_grown GROW_STEP fuel _ _ _ _ _ Hticket)
    as (c0 & w' & Hrun & Hinfo & Hb' & Hu' & Hp').
  { simpl. rewrite Hu. apply lookup_resize_new; simpl; lia. }
  { simpl. rewrite Hp, Nat.div_small by lia. done. }
  simpl in Hu', Hp'. rewrite Hu in Hu'. rewrite Hp in Hp'.
  exists c0, w'. split.
  - rewrite Hrun, Nat.mod_small by lia. done.
  - unfold filled. rewrite Hu', Hp', Hb', Hinfo. simpl.
    rewrite length_insert, length_resize, resize_nil.
    split_and!; try done.
    + destruct GROW_STEP as [|n]; [lia|]. simpl. by rewrite Nat.sub_0_r.
    + rewrite u32_small; lia.
    + intros i Hi. rewrite list_lookup_insert_ne by lia.
      rewrite resize_nil. apply lookup_replicate_2. lia.
Qed.

(** The commit made when the first container is full makes the second
    container and takes its first slot. *)
Lemma Commit_full fuel c0 s (w : World) :
  (GROW_STEP ≤ fuel)%nat → behind s →
  filled GROW_STEP c0 GROW_STEP (query_pools w) →
  ∃ c1 w',
    Commit (S fuel) (refreshed GROW_STEP s w) = (Ok (vk.handle c1, 0), w') ∧
    pools (query_pools w') = [c0; c1] ∧
    queryCount (vk.info c1) = Z.of_nat GROW_STEP ∧
    usage (query_pools w') =
      replicate (S GROW_STEP) true ++ replicate (GROW_STEP - 1) false.
Proof.
  intros Hfuel Hs (Hu & Hp & Hcount & Hlen & _ & _).
  rewrite Nat.sub_diag, app_nil_r in Hu.
  assert (pool_ok GROW_STEP (H := LAWS)
            (query_pools (refreshed GROW_STEP s w))) as Hok.
  { unfold pool_ok, sizes_ok, total_capacity. simpl.
    rewrite Hu, Hp, length_replicate. simpl.
    split_and!; [exact Hs|done|lia|by repeat constructor]. }
  destruct (Commit_spec GROW_STEP GROW_STEP_pos GROW_STEP_u32 (S fuel) _ Hok)
    as (r & w' & cs & Hrun & Hok' & Hp' & Hr).
  destruct r as [q|f].
  2: { destruct Hr as [_ Hlong].
       pose proof (reissued_length GROW_STEP GROW_STEP_pos GROW_STEP_u32
         (S fuel) (base (query_pools (refreshed GROW_STEP s w)))
         (LAWS := LAWS)
         (Tickets_never_reissues GROW_STEP GROW_STEP_pos)) as Hshort.
       simpl in Hshort, Hlong. specialize (Hshort Hs). lia. }
  destruct Hr as (skipped & index & w1 & k & c & Hret & Hu1 & -> & Hc & ->).
  destruct (retried_last GROW_STEP GROW_STEP_pos GROW_STEP_u32 _ _ _ _ Hok Hret)
    as (wl & Hokl & Hul & Hpl & Hlast & Hfree).
  destruct (CommitResource_ok GROW_STEP GROW_STEP_pos GROW_STEP_u32 wl Hokl)
    as (w1' & k' & cs' & Hrun' & _ & _ & Hu1' & Hp1' & Hlt & Hcase).
  rewrite Hlast in Hrun'. injection Hrun' as Hindex <-.
  simpl in Hul, Hpl. rewrite Hul, Hu in Hu1'. rewrite Hpl, Hp in Hp1'.
  destruct (Tickets_CommitResource_cases GROW_STEP (base (query_pools wl)))
    as [(i & tick & Hcr & _)|[Hcr _]];
    simpl in Hcase, Hindex, Hlt; rewrite Hcr in Hcase, Hindex, Hlt;
    simpl in Hcase, Hindex, Hlt.
  { destruct Hcase as [-> ->]. rewrite app_nil_r in Hu1'.
    rewrite Hu1', length_replicate in Hlt.
    rewrite Hu1', lookup_replicate_2 in Hfree by lia. done. }
  destruct Hcase as (-> & Hone & _).
  destruct cs' as [|c1 [|? ?]]; try done.
  assert (index = GROW_STEP) as ->.
  { rewrite Hindex. destruct Hokl as (_ & Hcap & _).
    simpl in Hcap. by rewrite <- Hcap, Hul, Hu, length_replicate. }
  rewrite Hp1', Nat.div_same in Hc by lia. simpl in Hc. injection Hc as <-.
  exists c1. eexists. rewrite Hrun. split_and!.
  - by rewrite Nat.Div0.mod_same, u32_small by lia.
  - simpl. by rewrite Hp1'.
  - destruct Hok' as (_ & _ & _ & Hall). simpl in Hall.
    rewrite Hp1' in Hall. simpl in Hall.
    by apply Forall_cons in Hall as [_ [Hall _]%Forall_cons].
  - simpl. rewrite Hu1'.
    pose proof (mark_next GROW_STEP (GROW_STEP + GROW_STEP)) as Hmark.
    replace (GROW_STEP + GROW_STEP - GROW_STEP)%nat with GROW_STEP in Hmark
      by lia.
    rewrite Hmark by lia. simpl. do 3 f_equal. lia.
Qed.

(** The commits that follow the first, up to the one that makes the second
    container. *)
Lemma Commits_from_filled fuel rest k c0 (w : World) :
  (1 ≤ k ≤ GROW_STEP)%nat → (k + length rest = S GROW_STEP)%nat →
  (GROW_STEP ≤ fuel)%nat → Forall behind rest →
  filled GROW_STEP c0 k (query_pools w) →
  ∃ qs c1 w',
    Commits (S fuel) (refreshes rest) w = (Ok qs, w') ∧
    pools (query_pools w') = [c0; c1] ∧
    queryCount (vk.info c1) = Z.of_nat GROW_STEP ∧
    usage (query_pools w') =
      replicate (S GROW_STEP) true ++ replicate (GROW_STEP - 1) false ∧
    length qs = length rest ∧
    qs !! (GROW_STEP - k)%nat = Some (vk.handle c1, 0) ∧
    ∀ j, (j < GROW_STEP - k)%nat →
         qs !! j = Some (vk.handle c0, Z.of_nat (k + j)).
Proof.
  revert k w. induction rest as [|s rest IH]; intros k w Hk Hlen Hfuel Hall Hfilled.
  { simpl in Hlen. lia. }
  apply Forall_cons in Hall as [Hs Hall]. simpl in Hlen.
  unfold refreshes. rewrite fmap_cons, Commits_cons. fold (refreshed GROW_STEP s w).
  fold (refreshes rest).
  destruct (decide (k = GROW_STEP)) as [->|Hne].
  - destruct rest as [|? ?]; [|simpl in Hlen; lia].
    destruct (Commit_full fuel c0 s w Hfuel Hs Hfilled)
      as (c1 & w' & -> & Hp & Hcount & Hu).
    exists [(vk.handle c1, 0)], c1, w'. simpl.
    rewrite Nat.sub_diag. split_and!; try done. intros j Hj. lia.
  - destruct (Commit_next fuel c0 k s w) as (w1 & -> & Hfilled1);
      [lia|done|done|].
    destruct (IH (S k) w1) as (qs & c1 & w' & -> & Hp & Hcount & Hu & Hqs & Hlast & Hfirst);
      [lia|lia|done|done|done|].
    exists ((vk.handle c0, Z.of_nat k) :: qs), c1, w'.
    split_and!; try done.
    + simpl. by rewrite Hqs.
    + replace (GROW_STEP - k)%nat with (S (GROW_STEP - S k)) by lia. done.
    + intros [|j] Hj; simpl.
      * by rewrite Nat.add_0_r.
      * rewrite Hfirst by lia. do 3 f_equal. lia.
Qed.

(** C7.  From a pool with no slot, no container and no ticket, over the
    reference ticket pool, [GROW_STEP + 1] commits in a row, with no
    [Reserve], each made with the device behind the scheduler, all return;
    the pool then has exactly two containers, each created with [GROW_STEP]
    slots; the first [GROW_STEP] commits returned the slots of the first
    container in order, and the last one, the commit of the flat index
    [GROW_STEP], returned the second container with offset 0. *)
Theorem second_container_after_GROW_STEP_commits fuel sems (w : World) :
  usage (query_pools w) = [] → pools (query_pools w) = [] →
  ticks (base (query_pools w)) = [] →
  length sems = S GROW_STEP → Forall behind sems →
  (GROW_STEP < fuel)%nat →
  ∃ qs c0 c1 w',
    Commits fuel (refreshes sems) w = (Ok qs, w') ∧
    pools (query_pools w') = [c0; c1] ∧
    queryCount (vk.info c0) = Z.of_nat GROW_STEP ∧
    queryCount (vk.info c1) = Z.of_nat GROW_STEP ∧
    length (usage (query_pools w')) = (2 * GROW_STEP)%nat ∧
    length qs = S GROW_STEP ∧
    (∀ i, (i < GROW_STEP)%nat → qs !! i = Some (vk.handle c0, Z.of_nat i)) ∧
    qs !! GROW_STEP = Some (vk.handle c1, 0) ∧
    (GROW_STEP / GROW_STEP = 1)%nat ∧ (GROW_STEP mod GROW_STEP = 0)%nat.
Proof.
  intros Hu Hp Ht Hlen Hall Hfuel.
  destruct fuel as [|fuel]; [lia|].
  destruct sems as [|s rest]; [done|].
  apply Forall_cons in Hall as [Hs Hall]. simpl in Hlen.
  unfold refreshes. rewrite fmap_cons, Commits_cons. fold (refreshed GROW_STEP s w).
  fold (refreshes rest).
  destruct (Commit_first fuel s w Hs Hu Hp Ht) as (c0 & w1 & -> & Hfilled).
  pose proof Hfilled as (_ & _ & Hcount0 & _).
  destruct (Commits_from_filled fuel rest 1 c0 w1)
    as (qs & c1 & w' & Hrun & Hp' & Hcount1 & Hu' & Hqs & Hlast & Hfirst);
    [lia|lia|lia|done|done|].
  rewrite Hrun.
  pose proof (lookup_lt_Some _ _ _ Hlast) as Hlong.
  exists ((vk.handle c0, 0) :: qs), c0, c1, w'. split_and!; try done.
  - rewrite Hu', length_app, !length_replicate. lia.
  - simpl. lia.
  - intros [|i] Hi; [done|]. simpl. rewrite Hfirst by lia. done.
  - destruct GROW_STEP as [|n]; [lia|]. simpl.
    by replace (S n - 1)%nat with n in Hlast by lia.
  - by apply Nat.div_same, Nat.neq_0_lt_0.
  - by apply Nat.Div0.mod_same.
Qed.

End GrowthRun.

(** * The theorems at work *)

Section Witnesses.

Import Reference.

Abbreviation two_pos := (Nat.lt_0_succ 1).
Abbreviation two_u32 := (eq_refl : Z.of_nat 2 < 2 ^ 32).
Abbreviation laws := (Tickets_laws 2 two_pos).

Lemma Example_empty_ok :
  pool_ok 2 (H := laws) (query_pools Example.empty).
Proof.
  unfold pool_ok, sizes_ok, total_capacity. simpl. unfold Tickets_ok. simpl.
  split_and!; [lia|lia|done|done|constructor].
Defined.

Lemma Example_busy_ok status :
  pool_ok 2 (H := laws) (query_pools (Example.busy status)).
Proof.
  unfold pool_ok, sizes_ok, total_capacity. simpl. unfold Tickets_ok. simpl.
  split_and!; [lia|lia|done|done|by repeat constructor].
Defined.

(** In [busy], after [Reserve] of the first slot, the device having caught
    up, the next commit returns that slot. *)
Lemma Commit_returns_free_slot_witness :
  ∃ w', QueryPool_Commit 2 3
          (QueryPool_Reserve 2 (1, 0) (Example.busy VK_SUCCESS)).2
        = (Ok (1, 0), w').
Proof.
  destruct (Commit_returns_free_slot 2 (LAWS := laws) two_pos two_u32 3
              (QueryPool_Reserve 2 (1, 0) (Example.busy VK_SUCCESS)).2
              (Tickets_never_reissues 2 two_pos))
    as [_ Hagain].
  - unfold pool_ok, sizes_ok, total_capacity. simpl. unfold Tickets_ok. simpl.
    split_and!; [lia|lia|done|done|by repeat constructor].
  - simpl. lia.
  - eapply (Hagain (Example.busy VK_SUCCESS) (1, 0) 0%nat);
      [reflexivity|reflexivity|simpl; lia|reflexivity].
Defined.

(** Three commits from the empty pool, the ticks moving in between. *)
Lemma Commits_return_distinct_slots_witness :
  (QueryPool_Commits 2 (TP := ticket_pool 2) 3
     [Refresh 1 0; Refresh 2 1; Refresh 3 2] Example.empty).1
    = Ok [(1, 0); (1, 1); (2, 0)] ∧
  NoDup [((1, 0) : Query); (1, 1); (2, 0)].
Proof.
  split; [vm_compute; reflexivity|].
  eapply (Commits_return_distinct_slots 2 (LAWS := laws) two_pos two_u32 3
            [Refresh 1 0; Refresh 2 1; Refresh 3 2] Example.empty
            [(1, 0); (1, 1); (2, 0)]
            (QueryPool_Commits 2 (TP := ticket_pool 2) 3
               [Refresh 1 0; Refresh 2 1; Refresh 3 2] Example.empty).2).
  - exact Example_empty_ok.
  - repeat constructor; simpl; unfold Tickets_ok in *; simpl; lia.
  - vm_compute. reflexivity.
  - apply (bool_decide_unpack _). vm_compute. exact I.
Defined.

(** With the tick of the counter at the current tick 3 the flush is made,
    with the tick 2 it is not. *)
Lemma BlockingQuery_flushes_iff_witness :
  EvFlush ∈ new_events (Example.busy VK_SUCCESS)
              (HostCounter_BlockingQuery (Example.counter 3)
                 (Example.busy VK_SUCCESS)).2 ∧
  head (new_events (Example.busy VK_SUCCESS)
          (HostCounter_BlockingQuery (Example.counter 2)
             (Example.busy VK_SUCCESS)).2)
    = Some (EvGetQueryResults (1, 1) fetch_flags).
Proof.
  split.
  - apply (BlockingQuery_flushes_iff (Example.counter 3)
             (Example.busy VK_SUCCESS)).
    simpl. lia.
  - apply (BlockingQuery_flushes_iff (Example.counter 2)
             (Example.busy VK_SUCCESS)).
    simpl. lia.
Defined.

(** A lost device: the loss is reported, then the exception is thrown. *)
Lemma BlockingQuery_result_witness :
  (HostCounter_BlockingQuery (Example.counter 2)
     (Example.busy VK_ERROR_DEVICE_LOST)).1
    = Fail (VkException VK_ERROR_DEVICE_LOST) ∧
  last (new_events (Example.busy VK_ERROR_DEVICE_LOST)
          (HostCounter_BlockingQuery (Example.counter 2)
             (Example.busy VK_ERROR_DEVICE_LOST)).2)
    = Some EvReportLoss.
Proof.
  destruct (BlockingQuery_result (Example.counter 2)
              (Example.busy VK_ERROR_DEVICE_LOST))
    as (_ & Hlost & _).
  destruct (Hlost eq_refl) as (Hr & Hlast & _). by split.
Defined.

(** A counter built in the empty pool, ended, read and destroyed. *)
Lemma HostCounter_delete_reserves_once_witness :
  (HostCounter_new 2 3 None SamplesPassed Example.empty).1
    = Ok Example.first_counter ∧
  List.filter is_reserve
    (new_events Example.empty
       (HostCounter_delete 2 Example.first_counter
          (HostCounter_calls Example.first_counter
             [CallEndQuery; CallBlockingQuery]
             (HostCounter_new 2 3 None SamplesPassed Example.empty).2)).2)
    = [EvReserve SamplesPassed (1, 0)].
Proof.
  split; [vm_compute; reflexivity|].
  apply (HostCounter_delete_reserves_once 2 3 None SamplesPassed
           Example.empty Example.first_counter
           (HostCounter_new 2 3 None SamplesPassed Example.empty).2
           [CallEndQuery; CallBlockingQuery]).
  vm_compute. reflexivity.
Defined.

(** In [busy] no container has the handle 7; the container with the handle 1
    is at position 0, and its second slot has the flat index 1. *)
Lemma Reserve_unowned_asserts_witness :
  QueryPool_Reserve 2 (7, 0) (Example.busy VK_SUCCESS)
    = (Fail AssertionFailed, Example.busy VK_SUCCESS) ∧
  ∃ w', QueryPool_Reserve 2 (1, 1) (Example.busy VK_SUCCESS) = (Ok (), w') ∧
        usage (query_pools w') = [true; false].
Proof.
  split.
  - apply (Reserve_unowned_asserts 2 (7, 0) (Example.busy VK_SUCCESS)).
    intros c Hc. apply list_elem_of_singleton in Hc. by subst c.
  - destruct (Reserve_unowned_asserts 2 (1, 1) (Example.busy VK_SUCCESS))
      as [_ Hclear].
    destruct (Hclear 0%nat Example.container 1%nat)
      as (w' & Hrun & Hu & _); [done|done|intros; lia|done|done|simpl; lia|].
    exists w'. by split.
Defined.

(** Three commits from the empty pool with chunks of 2. *)
Lemma second_container_after_GROW_STEP_commits_witness :
  ∃ qs c0 c1 w',
    QueryPool_Commits 2 (TP := ticket_pool 2) 3 (refreshes [(1, 0); (2, 1); (3, 2)]) Example.empty
      = (Ok qs, w') ∧
    pools (query_pools w') = [c0; c1] ∧
    qs !! 2%nat = Some (vk.handle c1, 0).
Proof.
  destruct (second_container_after_GROW_STEP_commits 2 two_pos two_u32 3
              [(1, 0); (2, 1); (3, 2)] Example.empty)
    as (qs & c0 & c1 & w' & Hrun & Hp & _ & _ & _ & _ & _ & Hlast & _);
    [done|done|done|done| |lia|].
  { repeat constructor; unfold behind; simpl; lia. }
  exists qs, c0, c1, w'. by split_and!.
Defined.

(** The invariant holds after a commit and after a release in [busy]. *)
Lemma pool_invariant_preserved_witness :
  pool_ok 2 (H := laws)
    (query_pools (QueryPool_Commit 2 3 (Example.busy VK_SUCCESS)).2) ∧
  pool_ok 2 (H := laws)
    (query_pools (QueryPool_Reserve 2 (1, 1) (Example.busy VK_SUCCESS)).2).
Proof.
  destruct (pool_invariant_preserved 2 (LAWS := laws) two_pos two_u32
              (Example.busy VK_SUCCESS) 2 4 3 (1, 1) 0)
    as (_ & Hkept & _).
  apply Hkept, Example_busy_ok.
Defined.

(** In [busy] the loop is handed the two slots in use, then the pool grows
    and the loop ends with the first slot of the new container. *)
Lemma Commit_loop_terminates_witness :
  ∃ w', Commit_loop 3 (Example.busy VK_SUCCESS) = (Ok 2%nat, w') ∧
        usage (query_pools w') !! 2%nat = Some false.
Proof.
  destruct (Commit_loop_terminates 2 (LAWS := laws) two_pos two_u32 3
              (Example.busy VK_SUCCESS) 2 4 2)
    as [_ Hends].
  destruct (Hends (Tickets_never_reissues 2 two_pos)
              (Example_busy_ok VK_SUCCESS))
    as (index & w' & Hrun & Hfree); [simpl; lia|].
  exists w'.
  assert ((Commit_loop 3 (Example.busy VK_SUCCESS)).1 = Ok 2%nat) as Hindex
    by (vm_compute; reflexivity).
  rewrite Hrun in Hindex. simpl in Hindex. injection Hindex as ->.
  by split.
Defined.

(** The second slot of [busy] released twice. *)
Lemma Reserve_idempotent_witness :
  QueryPool_Reserve 2 (1, 1)
    (QueryPool_Reserve 2 (1, 1) (Example.busy VK_SUCCESS)).2
  = (Ok (), (QueryPool_Reserve 2 (1, 1) (Example.busy VK_SUCCESS)).2).
Proof.
  apply (Reserve_idempotent 2 (1, 1) (Example.busy VK_SUCCESS)).
  vm_compute. reflexivity.
Defined.

End Witnesses.

(** * More of the code: what the calls leave alone *)

Section Frames.

Context (GROW_STEP : nat).
Context `{TP : TicketPool} `{SCH : VKScheduler} `{DEV : VKDevice}.

(** [silent w w']: from [w] to [w'] the scheduler has not been called: it
    is as it was, and the trace has grown by calls that record nothing and
    flush nothing. *)
Definition silent (w w' : World) : Prop :=
  scheduler w' = scheduler w ∧
  ∃ events, trace w' = trace w ++ events ∧
            recorded events = [] ∧ flushes events = 0%nat.

Lemma silent_refl w : silent w w.
Proof. split; [done|]. exists []. by rewrite app_nil_r. Qed.

Lemma silent_trans w1 w2 w3 : silent w1 w2 → silent w2 w3 → silent w1 w3.
Proof.
  intros (Hs1 & e1 & H1 & R1 & F1) (Hs2 & e2 & H2 & R2 & F2).
  split; [congruence|]. exists (e1 ++ e2). split_and!.
  - by rewrite H2, H1, app_assoc.
  - unfold recorded in *. by rewrite fmap_app, concat_app, R1, R2.
  - unfold flushes in *. rewrite List.filter_app, length_app. lia.
Qed.

Lemma silent_CommitResource w : silent w (QueryPool_CommitResource w).2.
Proof.
  destruct (CommitResource_run w) as (w' & -> & _ & _ & Hs & Hcase). simpl.
  split; [done|].
  destruct ((CommitResource (base (query_pools w))).1.2) as [[begin end_]|].
  - destruct Hcase as (_ & c & _ & _ & _ & Htr). by eexists.
  - destruct Hcase as (_ & _ & _ & Htr). exists []. by rewrite app_nil_r.
Qed.

Lemma silent_Commit_loop fuel w : silent w (Commit_loop fuel w).2.
Proof.
  revert w. induction fuel as [|fuel IH]; intros w; [apply silent_refl|].
  simpl. unfold mbind at 1, M_bind at 1.
  pose proof (silent_CommitResource w) as Hstep.
  destruct (QueryPool_CommitResource w) as [[index|f] w1]; [|done].
  unfold mbind, M_bind, get_pool, mret, M_ret, throw. simpl.
  destruct (usage (query_pools w1) !! index) as [[|]|]; try done.
  eapply silent_trans; [exact Hstep|apply IH].
Qed.

Lemma silent_Commit fuel w : silent w (QueryPool_Commit GROW_STEP fuel w).2.
Proof.
  unfold QueryPool_Commit. unfold mbind at 1, M_bind at 1.
  pose proof (silent_Commit_loop fuel w) as Hloop.
  destruct (Commit_loop fuel w) as [[index|f] w1]; [|done].
  unfold mbind, M_bind, get_pool, modify_pool, mret, M_ret, throw. simpl.
  by destruct (pools (query_pools w1) !! _).
Qed.

(** [EndQuery] and [BlockingQuery] leave the pool as it is. *)
Lemma HostCounter_calls_keep_pool this calls w :
  query_pools (HostCounter_calls this calls w) = query_pools w.
Proof.
  revert w. induction calls as [|call calls IH]; intros w; [done|].
  destruct call; simpl; rewrite IH; [done|].
  by rewrite BlockingQuery_run.
Qed.

(** The constructor, step by step. *)
Lemma HostCounter_new_run fuel dep ty w this w1 :
  HostCounter_new GROW_STEP fuel dep ty w = (Ok this, w1) →
  ∃ wa,
    QueryPool_Commit GROW_STEP fuel
      (set_trace (trace w ++ [EvAllocateQuery ty]) w) = (Ok (query this), wa) ∧
    this = {| dependency := dep; counter_type := ty; query := query this;
              tick := CurrentTick (scheduler w) |} ∧
    query_pools w1 = query_pools wa ∧
    device w1 = device wa ∧
    scheduler w1 =
      RecordCommands
        [CmdResetQueryPoolEXT (query this).1 (query this).2 1;
         CmdBeginQuery (query this).1 (query this).2
           VK_QUERY_CONTROL_PRECISE_BIT] (scheduler w) ∧
    trace w1 = trace wa ++
      [EvRecord
         [CmdResetQueryPoolEXT (query this).1 (query this).2 1;
          CmdBeginQuery (query this).1 (query this).2
            VK_QUERY_CONTROL_PRECISE_BIT]].
Proof.
  intros Hnew.
  unfold HostCounter_new, VKQueryCache_AllocateQuery, Scheduler_CurrentTick,
    Scheduler_Record in Hnew.
  unfold mbind, M_bind, emit, call_scheduler, mret, M_ret in Hnew.
  simpl in Hnew.
  pose proof (silent_Commit fuel
    (set_trace (trace w ++ [EvAllocateQuery ty]) w)) as [Hs _].
  destruct (QueryPool_Commit GROW_STEP fuel _) as [[q|f] wa]; [|done].
  simpl in Hnew, Hs. injection Hnew as <- <-. simpl.
  exists wa. rewrite Hs. by split_and!.
Qed.

End Frames.

(** * More of the code: growth, release and the count of used slots *)

Lemma used_app_free (l : list bool) k :
  filter (λ b : bool, b = true) (l ++ replicate k false)
  = filter (λ b : bool, b = true) l.
Proof.
  rewrite filter_app.
  assert (filter (λ b : bool, b = true) (replicate k false) = []) as ->.
  { induction k as [|k IH]; [done|]. simpl.
    rewrite filter_cons_False by done. exact IH. }
  by rewrite app_nil_r.
Qed.

Lemma used_mark (l : list bool) i :
  l !! i = Some false →
  length (filter (λ b : bool, b = true) (<[i := true]> l))
  = S (length (filter (λ b : bool, b = true) l)).
Proof.
  revert i. induction l as [|b l IH]; intros i Hi; [done|].
  destruct i as [|i]; simpl in Hi.
  - injection Hi as ->. change (<[0%nat := true]> (false :: l)) with (true :: l).
    by rewrite (filter_cons_True _ true), (filter_cons_False _ false).
  - change (<[S i := true]> (b :: l)) with (b :: <[i := true]> l).
    destruct b.
    + rewrite !(filter_cons_True _ true) by done. simpl. by rewrite IH.
    + rewrite !(filter_cons_False _ false) by done. by apply IH.
Qed.

Section Growth.

Context (GROW_STEP : nat).
Context `{TP : TicketPool} `{SCH : VKScheduler} `{DEV : VKDevice}.
Context `{LAWS : !TicketPoolLaws GROW_STEP}.
Hypothesis GROW_STEP_pos : (0 < GROW_STEP)%nat.
Hypothesis GROW_STEP_u32 : Z.of_nat GROW_STEP < 2 ^ 32.

#[local] Set Default Proof Using "GROW_STEP_pos GROW_STEP_u32".

Abbreviation Commit := (QueryPool_Commit GROW_STEP).
Abbreviation Reserve := (QueryPool_Reserve GROW_STEP).

(** The retry loop either leaves the bits, the containers, the device and
    the trace as they were, or it ends on the request that made the pool
    grow, with a ticket of the new chunk and one new container. *)
Lemma Commit_loop_growth fuel w :
  pool_ok GROW_STEP (query_pools w) →
  ∃ r w',
    Commit_loop fuel w = (r, w') ∧
    pool_ok GROW_STEP (query_pools w') ∧
    ((usage (query_pools w') = usage (query_pools w) ∧
      pools (query_pools w') = pools (query_pools w) ∧
      device w' = device w ∧ trace w' = trace w ∧
      match r with
      | Ok index => usage (query_pools w) !! index = Some false
      | Fail f => f = OutOfFuel
      end) ∨
     (∃ index c,
        r = Ok index ∧
        usage (query_pools w') =
          usage (query_pools w) ++ replicate GROW_STEP false ∧
        pools (query_pools w') = pools (query_pools w) ++ [c] ∧
        (length (usage (query_pools w)) ≤ index
           < length (usage (query_pools w)) + GROW_STEP)%nat ∧
        queryCount (vk.info c) = Z.of_nat GROW_STEP ∧
        queryType (vk.info c) = GetTarget (type (query_pools w)) ∧
        (vk.handle c, device w') = CreateQueryPool (vk.info c) (device w) ∧
        trace w' = trace w ++ [EvCreateQueryPool (vk.info c)])).
Proof.
  revert w. induction fuel as [|fuel IH]; intros w Hok.
  { exists (Fail OutOfFuel), w. split_and!; [done|done|]. left. by split_and!. }
  destruct (CommitResource_ok GROW_STEP GROW_STEP_pos GROW_STEP_u32 w Hok)
    as (w1 & k1 & cs1 & Hrun & Hok1 & _ & Hu1 & _ & Hlt & _).
  destruct (CommitResource_run w)
    as (w1' & Hrun' & Hb & Hty & _ & Hcase).
  rewrite Hrun in Hrun'. injection Hrun' as <-.
  destruct Hok as (Htp & Hcap & Hsizes).
  simpl. unfold mbind at 1, M_bind at 1. rewrite Hrun.
  unfold mbind at 1, M_bind at 1, get_pool at 1. simpl.
  destruct (CommitResource (base (query_pools w))) as [[t' grow] i] eqn:E.
  simpl in *. destruct grow as [[begin end_]|].
  - destruct (tp_grow _ _ _ _ _ Htp E) as (-> & -> & _ & Hi & _).
    destruct Hcase as (Hu & c & Hp & Hinfo & Hdev & Htr).
    assert (usage (query_pools w1) =
            usage (query_pools w) ++ replicate GROW_STEP false) as Hu'.
    { rewrite Hu, resize_ge by lia. do 2 f_equal. lia. }
    assert (usage (query_pools w1) !! i = Some false) as ->.
    { rewrite Hu', lookup_app_r by lia. apply lookup_replicate_2. lia. }
    exists (Ok i), w1. split_and!; [done|done|]. right.
    exists i, c. split_and!; [done|done|done|lia|lia|..].
    + rewrite Hinfo. simpl. rewrite u32_small; lia.
    + by rewrite Hinfo.
    + by rewrite Hinfo.
    + by rewrite Hinfo.
  - destruct Hcase as (Hu & Hp & Hdev & Htr).
    destruct (tp_reuse _ _ _ Htp E) as (_ & Hi & _).
    rewrite Hu in Hlt.
    destruct (lookup_lt_is_Some_2 _ _ Hlt) as [used Hused].
    rewrite Hu, Hused. destruct used.
    + destruct (IH w1 Hok1) as (r & w' & -> & Hok' & Hr).
      exists r, w'. split_and!; [done|done|].
      rewrite Hu, Hp, Hdev, Htr, Hty in Hr. exact Hr.
    + exists (Ok i), w1. split_and!; [done|done|]. left. by split_and!.
Qed.

Lemma chunk_position n index :
  (n * GROW_STEP ≤ index < n * GROW_STEP + GROW_STEP)%nat →
  (index / GROW_STEP)%nat = n.
Proof using GROW_STEP_pos.
  intros Hi. symmetry.
  apply (Nat.div_unique index GROW_STEP n (index - n * GROW_STEP)); lia.
Qed.

(** [Commit] as a whole: no growth, and then nothing but the bit of the slot
    returned changes; or one growth, and then the slot returned is in the
    container just made. *)
Lemma Commit_effect fuel w :
  pool_ok GROW_STEP (query_pools w) →
  ∃ r w',
    Commit fuel w = (r, w') ∧
    pool_ok GROW_STEP (query_pools w') ∧
    ((pools (query_pools w') = pools (query_pools w) ∧
      device w' = device w ∧ trace w' = trace w ∧
      match r with
      | Ok q =>
          ∃ index c,
            usage (query_pools w) !! index = Some false ∧
            usage (query_pools w') = <[index := true]> (usage (query_pools w)) ∧
            pools (query_pools w) !! (index / GROW_STEP)%nat = Some c ∧
            q = (vk.handle c, Z.of_nat (index mod GROW_STEP))
      | Fail f => f = OutOfFuel ∧ usage (query_pools w') = usage (query_pools w)
      end) ∨
     (∃ index c,
        r = Ok (vk.handle c, Z.of_nat (index mod GROW_STEP)) ∧
        usage (query_pools w') =
          <[index := true]>
            (usage (query_pools w) ++ replicate GROW_STEP false) ∧
        (length (usage (query_pools w)) ≤ index
           < length (usage (query_pools w)) + GROW_STEP)%nat ∧
        pools (query_pools w') = pools (query_pools w) ++ [c] ∧
        queryCount (vk.info c) = Z.of_nat GROW_STEP ∧
        queryType (vk.info c) = GetTarget (type (query_pools w)) ∧
        (vk.handle c, device w') = CreateQueryPool (vk.info c) (device w) ∧
        trace w' = trace w ++ [EvCreateQueryPool (vk.info c)])).
Proof.
  intros Hok.
  destruct (Commit_loop_growth fuel w Hok) as (r & w1 & Hloop & Hok1 & Hr).
  assert (∀ index, u32 (Z.of_nat (index mod GROW_STEP))
                   = Z.of_nat (index mod GROW_STEP)) as Hu32.
  { intros index. apply u32_small.
    pose proof (Nat.mod_upper_bound index GROW_STEP). lia. }
  unfold QueryPool_Commit. unfold mbind at 1, M_bind at 1. rewrite Hloop.
  destruct Hr as [(Hu & Hp & Hdev & Htr & Hr)|(index & c & -> & Hu & Hp & Hi & Hrest)].
  - destruct r as [index|f].
    + destruct (container_of_index GROW_STEP GROW_STEP_pos GROW_STEP_u32
                  (query_pools w) index) as [c Hc].
      { apply Hok. } { by eapply lookup_lt_Some. }
      unfold mbind, M_bind, modify_pool, get_pool, mret, M_ret. simpl.
      rewrite Hp, Hc. eexists _, _. split; [reflexivity|]. simpl.
      split; [by apply pool_ok_mark|]. left. split_and!; try done.
      exists index, c. rewrite Hu, Hu32. by split_and!.
    + simpl in Hr. subst f. exists (Fail OutOfFuel), w1.
      split_and!; [done|done|]. left. by split_and!.
  - assert ((index / GROW_STEP)%nat = length (pools (query_pools w))) as Hdiv.
    { apply chunk_position.
      destruct Hok as (_ & _ & Hs).
      by rewrite <- (sizes_ok_length GROW_STEP GROW_STEP_pos GROW_STEP_u32 _ Hs). }
    unfold mbind, M_bind, modify_pool, get_pool, mret, M_ret. simpl.
    rewrite Hp, Hdiv, lookup_app_r, Nat.sub_diag by done. simpl.
    eexists _, _. split; [reflexivity|]. simpl.
    split; [by apply pool_ok_mark|]. right.
    exists index, c. rewrite Hu, Hu32.
    destruct Hrest as (? & ? & ? & ?). split_and!; try done; lia.
Qed.

(** X1.  A [Commit] in a pool that satisfies the invariant creates at most
    one native container.  When it creates none, it makes no call on the
    device at all and the containers are as they were.  When it creates one,
    with [GROW_STEP] slots and the query type of the pool, it returns a slot
    of that new container. *)
Theorem Commit_creates_at_most_one_container fuel w :
  pool_ok GROW_STEP (query_pools w) →
  (pools (query_pools (Commit fuel w).2) = pools (query_pools w) ∧
   device (Commit fuel w).2 = device w ∧
   new_events w (Commit fuel w).2 = []) ∨
  (∃ c offset,
     (Commit fuel w).1 = Ok (vk.handle c, offset) ∧
     0 ≤ offset < Z.of_nat GROW_STEP ∧
     pools (query_pools (Commit fuel w).2) = pools (query_pools w) ++ [c] ∧
     queryCount (vk.info c) = Z.of_nat GROW_STEP ∧
     queryType (vk.info c) = GetTarget (type (query_pools w)) ∧
     (vk.handle c, device (Commit fuel w).2)
       = CreateQueryPool (vk.info c) (device w) ∧
     new_events w (Commit fuel w).2 = [EvCreateQueryPool (vk.info c)]).
Proof.
  intros Hok.
  destruct (Commit_effect fuel w Hok) as (r & w' & -> & _ & Hr). simpl.
  destruct Hr as [(Hp & Hdev & Htr & _)
                 |(index & c & -> & _ & _ & Hp & Hcount & Hty & Hdev & Htr)].
  - left. split_and!; [done|done|].
    unfold new_events. by rewrite Htr, drop_all.
  - right. exists c, (Z.of_nat (index mod GROW_STEP)).
    split_and!; try done.
    + lia.
    + pose proof (Nat.mod_upper_bound index GROW_STEP). lia.
    + unfold new_events. by rewrite Htr, drop_app_length.
Qed.

(** [Reserve] of the slot of the index [index], in any world that has the
    pool [p], when no two containers have the same handle. *)
Lemma Reserve_slot_of_index (p : QueryPool) index c l w :
  NoDup (vk.handle <$> pools p) →
  pools p !! (index / GROW_STEP)%nat = Some c →
  usage p = <[index := true]> l →
  (index < length l)%nat →
  query_pools w = p →
  Reserve (vk.handle c, Z.of_nat (index mod GROW_STEP)) w =
    (Ok (), set_query_pools (set_usage (<[index := false]> l) p) w).
Proof.
  intros Hnodup Hc Hu Hlt <-. rewrite Reserve_run. simpl.
  assert (list_find (λ pool, vk.handle c = vk.handle pool)
            (pools (query_pools w)) = Some ((index / GROW_STEP)%nat, c)) as ->.
  { apply list_find_Some. split_and!; [done|done|].
    intros j c' Hc' Hj Heq.
    assert (j = (index / GROW_STEP)%nat); [|lia].
    eapply NoDup_lookup; [exact Hnodup|..].
    - by rewrite list_lookup_fmap, Hc'.
    - rewrite list_lookup_fmap, Hc. simpl. by rewrite Heq. }
  simpl.
  assert (Z.of_nat (index / GROW_STEP) * Z.of_nat GROW_STEP
            + Z.of_nat (index mod GROW_STEP) = Z.of_nat index) as ->.
  { rewrite (Nat.div_mod_eq index GROW_STEP) at 3. lia. }
  rewrite Hu, length_insert, decide_True by lia.
  by rewrite Nat2Z.id, list_insert_insert_eq.
Qed.

(** X2.  A slot returned by [Commit] can be given back: [Reserve] of that
    slot right after the commit does not fail, and it clears the bit that the
    commit set, so that the used-bits are the ones before the commit (with
    the free bits of a new chunk behind them when the pool has grown).  The
    containers stay. *)
Theorem Reserve_undoes_Commit fuel w q w' :
  pool_ok GROW_STEP (query_pools w) →
  Commit fuel w = (Ok q, w') →
  NoDup (vk.handle <$> pools (query_pools w')) →
  ∃ k,
    Reserve q w' =
      (Ok (),
       set_query_pools
         (set_usage (usage (query_pools w) ++ replicate k false)
            (query_pools w')) w').
Proof.
  intros Hok Hrun Hnodup.
  destruct (Commit_Ok GROW_STEP GROW_STEP_pos GROW_STEP_u32 _ _ _ _ Hok Hrun)
    as (_ & index & k & cs & c & Hu & Hfree & _ & Hc & ->).
  exists k.
  rewrite (Reserve_slot_of_index (query_pools w') index c
             (usage (query_pools w) ++ replicate k false) w');
    try done.
  - by rewrite list_insert_id.
  - by eapply lookup_lt_Some.
Qed.

(** X3.  Commits made in a row, with no [Reserve] in between, all return
    when the run returns, and each takes one slot: the number of used slots
    grows by the number of commits. *)
Theorem Commits_take_one_slot_each fuel outside w qs w' :
  pool_ok GROW_STEP (query_pools w) →
  Forall (harmless GROW_STEP) outside →
  QueryPool_Commits GROW_STEP fuel outside w = (Ok qs, w') →
  length qs = length outside ∧
  used_slots (query_pools w')
    = (used_slots (query_pools w) + length outside)%nat.
Proof.
  revert w qs. induction outside as [|f outside IH]; intros w qs Hok Hout Hrun.
  { injection Hrun as <- <-. simpl. split; [done|lia]. }
  apply Forall_cons in Hout as [Hf Hout].
  rewrite Commits_cons in Hrun.
  set (wf := set_query_pools _ w) in Hrun.
  assert (pool_ok GROW_STEP (query_pools wf)) as Hokf.
  { destruct Hok as (Ht & Hcap & Hs). destruct (Hf _ Ht) as [Ht' Hcap'].
    subst wf. split_and!; simpl; [done|by rewrite Hcap'|done]. }
  destruct (Commit fuel wf) as [[q|e] w1] eqn:Hcommit; [|done].
  destruct (QueryPool_Commits GROW_STEP fuel outside w1)
    as [[qs'|e] w2] eqn:Hrest; [|done].
  injection Hrun as <- <-.
  destruct (Commit_Ok GROW_STEP GROW_STEP_pos GROW_STEP_u32 _ _ _ _ Hokf Hcommit)
    as (Hok1 & index & k & cs & c & Hu1 & Hfree & _).
  destruct (IH _ _ Hok1 Hout Hrest) as [Hlen Hused].
  split; [simpl; by rewrite Hlen|].
  rewrite Hused. unfold used_slots. rewrite Hu1, used_mark by done.
  rewrite used_app_free. subst wf. simpl. lia.
Qed.

(** X4.  Over any run of commits, releases and harmless moves of the base
    class, whatever the calls return and wherever the run ends: the
    invariant of the pool holds at the end, the containers the run started
    with are still there, in their places, the sequence of used-bits has not
    become shorter, and the scheduler has not been called. *)
Theorem QueryPool_calls_keep_containers fuel calls w :
  pool_ok GROW_STEP (query_pools w) →
  harmless_calls GROW_STEP calls →
  pool_ok GROW_STEP (query_pools (QueryPool_calls GROW_STEP fuel calls w).2) ∧
  pools (query_pools w)
    `prefix_of` pools (query_pools (QueryPool_calls GROW_STEP fuel calls w).2) ∧
  (length (usage (query_pools w))
     ≤ length (usage (query_pools (QueryPool_calls GROW_STEP fuel calls w).2)))%nat ∧
  scheduler (QueryPool_calls GROW_STEP fuel calls w).2 = scheduler w.
Proof.
  revert w. induction calls as [|call calls IH]; intros w Hok Hcalls.
  { simpl. by split_and!. }
  apply Forall_cons in Hcalls as [Hcall Hcalls].
  assert (∀ w1 : World,
    pool_ok GROW_STEP (query_pools w1) →
    pools (query_pools w) `prefix_of` pools (query_pools w1) →
    (length (usage (query_pools w)) ≤ length (usage (query_pools w1)))%nat →
    scheduler w1 = scheduler w →
    let w2 := (QueryPool_calls GROW_STEP fuel calls w1).2 in
    pool_ok GROW_STEP (query_pools w2) ∧
    pools (query_pools w) `prefix_of` pools (query_pools w2) ∧
    (length (usage (query_pools w)) ≤ length (usage (query_pools w2)))%nat ∧
    scheduler w2 = scheduler w) as Hnext.
  { intros w1 Hok1 Hp1 Hu1 Hs1.
    destruct (IH w1 Hok1 Hcalls) as (Hok2 & Hp2 & Hu2 & Hs2). simpl.
    split_and!; [done|by etrans|lia|congruence]. }
  destruct call as [|q|f]; simpl; unfold mbind, M_bind.
  - destruct (Commit_effect fuel w Hok) as (r & w1 & Hrun & Hok1 & Hr).
    pose proof (silent_Commit GROW_STEP fuel w) as [Hs _].
    rewrite Hrun in Hs |- *. simpl in Hs.
    assert (pools (query_pools w) `prefix_of` pools (query_pools w1) ∧
            (length (usage (query_pools w))
               ≤ length (usage (query_pools w1)))%nat) as [Hp1 Hu1].
    { destruct Hr as [(Hp & _ & _ & Hr)|(index & c & _ & Hu & _ & Hp & _)].
      - split; [by rewrite Hp|]. destruct r as [q|e].
        + destruct Hr as (index & c & _ & -> & _). by rewrite length_insert.
        + destruct Hr as [_ ->]. done.
      - split; [rewrite Hp; by apply prefix_app_r|].
        rewrite Hu, length_insert, length_app. lia. }
    destruct r as [q|e]; simpl; [|by split_and!].
    specialize (Hnext w1 Hok1 Hp1 Hu1 Hs). simpl in Hnext.
    by destruct (QueryPool_calls GROW_STEP fuel calls w1) as [[qs|e] w2].
  - pose proof (Reserve_ok GROW_STEP GROW_STEP_pos GROW_STEP_u32 q w Hok) as Hok1.
    rewrite Reserve_run in Hok1 |- *.
    destruct (list_find _ _) as [[k c]|]; [|done]. simpl in *.
    destruct (decide _); [|done]. simpl in *.
    apply Hnext; simpl; [done|done|by rewrite length_insert|done].
  - unfold modify_pool. simpl. apply Hnext; simpl; try done.
    destruct Hok as (Ht & Hcap & Hs). destruct (Hcall _ Ht) as [Ht' Hcap'].
    split_and!; simpl; [done|by rewrite Hcap'|done].
Qed.

(** X5.  A cache just built has a pool with no slot and no container, which
    satisfies the invariant when the base class starts with no ticket.  In it
    every [Reserve] fails with the assertion.  Its first [Commit] returns
    with any fuel but none: it creates the first container, with [GROW_STEP]
    slots of the occlusion type, and returns a slot of it, the one slot then
    used. *)
Theorem first_Commit_of_new_cache fuel s d base0 q :
  tp_ok base0 → capacity base0 = 0%nat →
  pool_ok GROW_STEP (query_pools (VKQueryCache_new s d base0)) ∧
  Reserve q (VKQueryCache_new s d base0)
    = (Fail AssertionFailed, VKQueryCache_new s d base0) ∧
  ∃ c index w',
    Commit (S fuel) (VKQueryCache_new s d base0)
      = (Ok (vk.handle c, Z.of_nat index), w') ∧
    (index < GROW_STEP)%nat ∧
    pools (query_pools w') = [c] ∧
    queryCount (vk.info c) = Z.of_nat GROW_STEP ∧
    queryType (vk.info c) = VK_QUERY_TYPE_OCCLUSION ∧
    (vk.handle c, device w') = CreateQueryPool (vk.info c) d ∧
    length (usage (query_pools w')) = GROW_STEP ∧
    used_slots (query_pools w') = 1%nat.
Proof.
  intros Hok Hcap. split_and!.
  - unfold pool_ok, sizes_ok, total_capacity. simpl.
    by split_and!; [|rewrite Hcap|..].
  - by rewrite Reserve_run.
  - destruct (CommitResource base0) as [[t' grow] i] eqn:E.
    destruct grow as [[begin end_]|].
    2: { destruct (tp_reuse _ _ _ Hok E) as (_ & Hi & _). lia. }
    destruct (tp_grow _ _ _ _ _ Hok E) as (-> & -> & _ & Hi & _).
    rewrite Hcap in Hi, E. simpl in Hi, E.
    destruct (Commit_first_grown GROW_STEP fuel (VKQueryCache_new s d base0)
                t' 0 GROW_STEP i)
      as (c & w' & Hrun & Hinfo & _ & Hu & Hp).
    { done. }
    { apply lookup_resize_new; simpl; lia. }
    { rewrite Nat.div_small by lia. done. }
    change (Commit (S fuel) (VKQueryCache_new s d base0)
              = (Ok (vk.handle c, u32 (Z.of_nat (i mod GROW_STEP))), w'))
      in Hrun.
    rewrite Nat.mod_small, u32_small in Hrun by lia.
    assert (pool_ok GROW_STEP (query_pools (VKQueryCache_new s d base0)))
      as Hnew.
    { unfold pool_ok, sizes_ok, total_capacity. simpl.
      by split_and!; [|rewrite Hcap|..]. }
    destruct (Commit_effect (S fuel) _ Hnew) as (r & w1 & Hrun' & _ & Hr).
    rewrite Hrun in Hrun'. injection Hrun' as <- <-.
    destruct Hr as [(Hp' & _)|(index & c' & _ & _ & _ & Hp' & Hn & Hty & Hd & _)].
    { rewrite Hp in Hp'. by destruct (pools _). }
    rewrite Hp in Hp'. apply app_inj_tail in Hp' as [_ <-].
    simpl in Hu, Hp, Hty, Hd.
    exists c, i, w'. split_and!; try done; try lia.
    + by rewrite Hu, length_insert, length_resize.
    + unfold used_slots. rewrite Hu, used_mark.
      * rewrite resize_nil.
        by rewrite <- (app_nil_l (replicate _ _)), used_app_free.
      * apply lookup_resize_new; simpl; lia.
Qed.


(** X7.  Two counters that live at the same time hold different queries:
    a counter built while another one exists, after any calls of that one,
    gets a slot that is not the slot of the other. *)
Theorem live_counters_hold_different_slots
    fuel dep1 ty1 dep2 ty2 calls w this w1 other w2 :
  pool_ok GROW_STEP (query_pools w) →
  HostCounter_new GROW_STEP fuel dep1 ty1 w = (Ok this, w1) →
  HostCounter_new GROW_STEP fuel dep2 ty2 (HostCounter_calls this calls w1)
    = (Ok other, w2) →
  NoDup (vk.handle <$> pools (query_pools w2)) →
  query this ≠ query other.
Proof.
  intros Hok Hnew1 Hnew2 Hnodup.
  destruct (HostCounter_new_run GROW_STEP _ _ _ _ _ _ Hnew1)
    as (wa & Hrun1 & _ & Hpool1 & _).
  destruct (HostCounter_new_run GROW_STEP _ _ _ _ _ _ Hnew2)
    as (wb & Hrun2 & _ & Hpool2 & _).
  destruct (Commit_Ok GROW_STEP GROW_STEP_pos GROW_STEP_u32 fuel
              (set_trace (trace w ++ [EvAllocateQuery ty1]) w) _ _ Hok Hrun1)
    as (Hoka & i & k1 & cs1 & c1 & Hu1 & Hfree1 & _ & Hc1 & Hq1).
  assert (pool_ok GROW_STEP
            (query_pools (HostCounter_calls this calls w1))) as Hok1.
  { by rewrite HostCounter_calls_keep_pool, Hpool1. }
  destruct (Commit_Ok GROW_STEP GROW_STEP_pos GROW_STEP_u32 fuel
              (set_trace (trace (HostCounter_calls this calls w1)
                            ++ [EvAllocateQuery ty2])
                 (HostCounter_calls this calls w1)) _ _ Hok1 Hrun2)
    as (_ & j & k2 & cs2 & c2 & _ & Hfree2 & Hp2 & Hc2 & Hq2).
  simpl in Hfree2, Hp2. rewrite HostCounter_calls_keep_pool, Hpool1 in Hfree2, Hp2.
  rewrite Hq1, Hq2. intros [= Hh Hmod].
  assert (i ≠ j) as Hij.
  { intros <-. rewrite Hu1 in Hfree2.
    apply lookup_lt_Some in Hfree1.
    rewrite lookup_app_l in Hfree2 by (by rewrite length_insert).
    rewrite list_lookup_insert_eq in Hfree2 by done. done. }
  assert ((i / GROW_STEP)%nat = (j / GROW_STEP)%nat) as Hdiv.
  { eapply NoDup_lookup; [exact Hnodup|..].
    - rewrite Hpool2, Hp2, list_lookup_fmap, lookup_app_l, Hc1;
        [done|by eapply lookup_lt_Some].
    - rewrite Hpool2, list_lookup_fmap, Hc2. simpl. by rewrite Hh. }
  apply Hij.
  rewrite (Nat.div_mod_eq i GROW_STEP), (Nat.div_mod_eq j GROW_STEP). lia.
Qed.


End Growth.

(** * The life of a counter *)

Section Life.

Context (GROW_STEP : nat).
Context `{TP : TicketPool} `{SCH : VKScheduler} `{DEV : VKDevice}.

Lemma recorded_app (a b : list Event) :
  recorded (a ++ b) = recorded a ++ recorded b.
Proof. unfold recorded. by rewrite fmap_app, concat_app. Qed.

Lemma flushes_app (a b : list Event) :
  flushes (a ++ b) = (flushes a + flushes b)%nat.
Proof. unfold flushes. by rewrite List.filter_app, length_app. Qed.

(** The events of the constructor: they record the reset and the begin of
    the query, and flush nothing. *)
Lemma HostCounter_new_events fuel dep ty w this w1 :
  HostCounter_new GROW_STEP fuel dep ty w = (Ok this, w1) →
  ∃ events,
    trace w1 = trace w ++ events ∧
    recorded events =
      [CmdResetQueryPoolEXT (query this).1 (query this).2 1;
       CmdBeginQuery (query this).1 (query this).2
         VK_QUERY_CONTROL_PRECISE_BIT] ∧
    flushes events = 0%nat.
Proof.
  intros Hnew.
  destruct (HostCounter_new_run GROW_STEP _ _ _ _ _ _ Hnew)
    as (wa & Hrun & _ & _ & _ & _ & Htrace).
  pose proof (silent_Commit GROW_STEP fuel
    (set_trace (trace w ++ [EvAllocateQuery ty]) w)) as (_ & ev & Hev & R & F).
  rewrite Hrun in Hev. simpl in Hev.
  eexists ([EvAllocateQuery ty] ++ ev ++ [EvRecord _]). split_and!.
  - rewrite Htrace, Hev. by rewrite <- !app_assoc.
  - rewrite !recorded_app, R. done.
  - rewrite !flushes_app, F. done.
Qed.

(** The events of one call of a counter. *)
Lemma EndQuery_events this w :
  trace (HostCounter_EndQuery this w).2
    = trace w ++ [EvRecord [CmdEndQuery (query this).1 (query this).2]] ∧
  scheduler (HostCounter_EndQuery this w).2
    = RecordCommands [CmdEndQuery (query this).1 (query this).2] (scheduler w).
Proof. done. Qed.

Lemma BlockingQuery_events this w :
  ∃ events,
    trace (HostCounter_BlockingQuery this w).2 = trace w ++ events ∧
    recorded events = [] ∧
    flushes events =
      (if bool_decide (CurrentTick (scheduler w) ≤ tick this)
       then 1%nat else 0%nat) ∧
    scheduler (HostCounter_BlockingQuery this w).2 =
      if bool_decide (CurrentTick (scheduler w) ≤ tick this)
      then Flush (scheduler w) else scheduler w.
Proof.
  rewrite BlockingQuery_run. simpl. eexists. split; [reflexivity|].
  by repeat case_bool_decide.
Qed.

(** The events of the calls of a counter: they record one [EndQuery] for
    each call of [EndQuery], and nothing else. *)
Lemma HostCounter_calls_events this calls w :
  ∃ events,
    trace (HostCounter_calls this calls w) = trace w ++ events ∧
    recorded events = ended this calls.
Proof.
  revert w. induction calls as [|call calls IH]; intros w.
  { exists []. by rewrite app_nil_r. }
  destruct call; cbn [HostCounter_calls].
  - destruct (IH (HostCounter_EndQuery this w).2) as (ev & Hev & R).
    destruct (EndQuery_events this w) as [Ht _].
    eexists (_ ++ ev). split; [by rewrite Hev, Ht, <- app_assoc|].
    rewrite recorded_app, R. done.
  - destruct (IH (HostCounter_BlockingQuery this w).2) as (ev & Hev & R).
    destruct (BlockingQuery_events this w) as (ev0 & Ht & R0 & _).
    exists (ev0 ++ ev). split; [by rewrite Hev, Ht, <- app_assoc|].
    rewrite recorded_app, R, R0. done.
Qed.

(** With a scheduler whose tick recording leaves alone and flushing moves
    on, a counter whose tick is not ahead of the scheduler's is flushed for
    at most once: by its first [BlockingQuery], when no flush came since it
    was built. *)
Lemma HostCounter_calls_flushes this calls w :
  (∀ cmds s, CurrentTick (RecordCommands cmds s) = CurrentTick s) →
  (∀ s, CurrentTick s < CurrentTick (Flush s)) →
  tick this ≤ CurrentTick (scheduler w) →
  ∃ events,
    trace (HostCounter_calls this calls w) = trace w ++ events ∧
    flushes events =
      if bool_decide (CurrentTick (scheduler w) = tick this) && reads calls
      then 1%nat else 0%nat.
Proof.
  intros Hrecord Hflush. revert w.
  induction calls as [|call calls IH]; intros w Htick.
  { exists []. rewrite app_nil_r, andb_false_r. done. }
  destruct call; cbn [HostCounter_calls].
  - destruct (EndQuery_events this w) as [Ht Hs].
    destruct (IH (HostCounter_EndQuery this w).2) as (ev & Hev & F).
    { by rewrite Hs, Hrecord. }
    rewrite Hs, Hrecord in F.
    eexists (_ ++ ev). split; [by rewrite Hev, Ht, <- app_assoc|].
    by rewrite flushes_app, F.
  - destruct (BlockingQuery_events this w) as (ev0 & Ht & _ & F0 & Hs).
    pose proof (Hflush (scheduler w)) as Hlt.
    destruct (IH (HostCounter_BlockingQuery this w).2) as (ev & Hev & F).
    { rewrite Hs. case_bool_decide; lia. }
    rewrite Hs in F.
    exists (ev0 ++ ev). split; [by rewrite Hev, Ht, <- app_assoc|].
    rewrite flushes_app, F, F0, andb_true_r.
    repeat case_bool_decide; simpl; lia.
Qed.

(** X8.  The commands a counter records in its life, from its constructor
    through any calls of [EndQuery] and [BlockingQuery]: the reset and the
    precise begin of its query, then one end of the query for each call of
    [EndQuery]; reading the counter and committing its slot record
    nothing. *)
Theorem HostCounter_life_records fuel dep ty calls w this w1 :
  HostCounter_new GROW_STEP fuel dep ty w = (Ok this, w1) →
  recorded (new_events w (HostCounter_calls this calls w1)) =
    [CmdResetQueryPoolEXT (query this).1 (query this).2 1;
     CmdBeginQuery (query this).1 (query this).2 VK_QUERY_CONTROL_PRECISE_BIT]
    ++ ended this calls.
Proof.
  intros Hnew.
  destruct (HostCounter_new_events _ _ _ _ _ _ Hnew) as (ev0 & Ht0 & R0 & _).
  destruct (HostCounter_calls_events this calls w1) as (ev & Ht & R).
  unfold new_events. rewrite Ht, Ht0, <- app_assoc, drop_app_length.
  by rewrite recorded_app, R0, R.
Qed.

(** X9.  With a scheduler whose tick recording leaves alone and flushing
    moves on, a counter causes one flush in its life when it is read, by its
    first [BlockingQuery], and none when it is not read: building it,
    ending its query and reading it again flush nothing. *)
Theorem HostCounter_life_flushes_once fuel dep ty calls w this w1 :
  (∀ cmds s, CurrentTick (RecordCommands cmds s) = CurrentTick s) →
  (∀ s, CurrentTick s < CurrentTick (Flush s)) →
  HostCounter_new GROW_STEP fuel dep ty w = (Ok this, w1) →
  flushes (new_events w (HostCounter_calls this calls w1)) =
    if reads calls then 1%nat else 0%nat.
Proof.
  intros Hrecord Hflush Hnew.
  destruct (HostCounter_new_events _ _ _ _ _ _ Hnew) as (ev0 & Ht0 & _ & F0).
  destruct (HostCounter_new_run GROW_STEP _ _ _ _ _ _ Hnew)
    as (_ & _ & Hthis & _ & _ & Hs & _).
  apply (f_equal tick) in Hthis. simpl in Hthis.
  assert (CurrentTick (scheduler w1) = tick this) as Htick.
  { by rewrite Hs, Hrecord. }
  destruct (HostCounter_calls_flushes this calls w1 Hrecord Hflush)
    as (ev & Ht & F); [lia|].
  unfold new_events. rewrite Ht, Ht0, <- app_assoc, drop_app_length.
  rewrite flushes_app, F0, F.
  by rewrite (bool_decide_eq_true_2 _ Htick).
Qed.

(** X10.  Two counters can be destroyed in either order: when [Reserve]
    returns for each of two queries in a world, reserving one and then the
    other gives the same result and the same world as reserving them the
    other way round. *)
Theorem Reserves_commute q1 q2 w w1 w2 :
  QueryPool_Reserve GROW_STEP q1 w = (Ok (), w1) →
  QueryPool_Reserve GROW_STEP q2 w = (Ok (), w2) →
  QueryPool_Reserve GROW_STEP q2 w1 = QueryPool_Reserve GROW_STEP q1 w2.
Proof.
  intros H1 H2. rewrite Reserve_run in H1, H2.
  destruct (list_find (λ pool, q1.1 = vk.handle pool) _)
    as [[k1 c1]|] eqn:E1; [|done].
  destruct (list_find (λ pool, q2.1 = vk.handle pool) _)
    as [[k2 c2]|] eqn:E2; [|done].
  simpl in H1, H2.
  destruct (decide (0 ≤ Z.of_nat k1 * _ + q1.2 < _)) as [Hi1|]; [|done].
  destruct (decide (0 ≤ Z.of_nat k2 * _ + q2.2 < _)) as [Hi2|]; [|done].
  injection H1 as <-. injection H2 as <-.
  rewrite !Reserve_run. simpl. rewrite E1, E2. simpl.
  rewrite !length_insert, !decide_True by done.
  unfold set_query_pools, set_usage. simpl.
  destruct (decide (Z.to_nat (Z.of_nat k1 * Z.of_nat GROW_STEP + q1.2)
                    = Z.to_nat (Z.of_nat k2 * Z.of_nat GROW_STEP + q2.2)))
    as [->|Hne]; [done|].
  by rewrite list_insert_insert_ne.
Qed.


End Life.

(** * The properties of the growth and of the life of a counter, on the
    example worlds *)

Section LifeWitnesses.

Import Reference.

Abbreviation two_pos := (Nat.lt_0_succ 1).
Abbreviation two_u32 := (eq_refl : Z.of_nat 2 < 2 ^ 32).
Abbreviation laws := (Tickets_laws 2 two_pos).
Abbreviation Commit := (QueryPool_Commit 2 (TP := ticket_pool 2)).
Abbreviation Reserve := (QueryPool_Reserve 2 (TP := ticket_pool 2)).
Abbreviation new := (HostCounter_new 2 (TP := ticket_pool 2)).
Abbreviation delete := (HostCounter_delete 2 (TP := ticket_pool 2)).

Lemma Refresh_harmless current gpu :
  0 ≤ gpu < current → harmless 2 (H := laws) (Refresh current gpu).
Proof. intros Hgpu t Ht. simpl. unfold Tickets_ok. simpl. by split. Defined.

(** The first commit in [empty] creates the first container. *)
Lemma Commit_creates_at_most_one_container_witness :
  ∃ c, new_events Example.empty (Commit 3 Example.empty).2
         = [EvCreateQueryPool (vk.info c)] ∧
       queryCount (vk.info c) = 2.
Proof.
  destruct (Commit_creates_at_most_one_container 2 (LAWS := laws)
              two_pos two_u32 3 Example.empty Example_empty_ok)
    as [(_ & _ & He)|(c & offset & _ & _ & _ & Hn & _ & _ & He)].
  - vm_compute in He. discriminate He.
  - by exists c.
Defined.

(** The slot committed in [empty] is free again after its [Reserve]. *)
Lemma Reserve_undoes_Commit_witness :
  ∃ k, Reserve (1, 0) (Commit 3 Example.empty).2 =
         (Ok (),
          set_query_pools
            (set_usage (usage (query_pools Example.empty) ++ replicate k false)
               (query_pools (Commit 3 Example.empty).2))
            (Commit 3 Example.empty).2).
Proof.
  apply (Reserve_undoes_Commit 2 (LAWS := laws) two_pos two_u32 3
           Example.empty (1, 0) (Commit 3 Example.empty).2).
  - exact Example_empty_ok.
  - vm_compute. reflexivity.
  - apply (bool_decide_unpack _). vm_compute. exact I.
Defined.

(** Three commits from the empty pool use three slots. *)
Lemma Commits_take_one_slot_each_witness :
  used_slots
    (query_pools
       (QueryPool_Commits 2 (TP := ticket_pool 2) 3
          [Refresh 1 0; Refresh 2 1; Refresh 3 2] Example.empty).2)
  = (used_slots (query_pools Example.empty) + 3)%nat.
Proof.
  apply (Commits_take_one_slot_each 2 (LAWS := laws) two_pos two_u32 3
           [Refresh 1 0; Refresh 2 1; Refresh 3 2] Example.empty
           [(1, 0); (1, 1); (2, 0)]
           (QueryPool_Commits 2 (TP := ticket_pool 2) 3
              [Refresh 1 0; Refresh 2 1; Refresh 3 2] Example.empty).2).
  - exact Example_empty_ok.
  - repeat (apply Forall_cons_2; [apply Refresh_harmless; lia|]).
    apply Forall_nil_2.
  - vm_compute. reflexivity.
Defined.

(** A run of two commits with a release and a move of the ticks between
    them, from [busy]. *)
Lemma QueryPool_calls_keep_containers_witness :
  pools (query_pools (Example.busy VK_SUCCESS))
    `prefix_of`
  pools (query_pools
           (QueryPool_calls 2 (TP := ticket_pool 2) 3
              [CallCommit; CallReserve (1, 0);
               CallOutside (TP := ticket_pool 2) (Refresh 4 3); CallCommit]
              (Example.busy VK_SUCCESS)).2).
Proof.
  apply (QueryPool_calls_keep_containers 2 (LAWS := laws) two_pos two_u32 3
           [CallCommit; CallReserve (1, 0);
            CallOutside (TP := ticket_pool 2) (Refresh 4 3); CallCommit]
           (Example.busy VK_SUCCESS)).
  - exact (Example_busy_ok VK_SUCCESS).
  - repeat (apply Forall_cons_2; [try exact I|]); [|apply Forall_nil_2].
    apply Refresh_harmless. lia.
Defined.

(** The cache built over the scheduler, the device and the tickets of
    [empty]. *)
Lemma first_Commit_of_new_cache_witness :
  ∃ c index w',
    Commit 1 (VKQueryCache_new (scheduler Example.empty)
                (device Example.empty) (base (query_pools Example.empty)))
      = (Ok (vk.handle c, Z.of_nat index), w') ∧
    pools (query_pools w') = [c] ∧
    used_slots (query_pools w') = 1%nat.
Proof.
  destruct (first_Commit_of_new_cache 2 (LAWS := laws) two_pos two_u32 0
              (scheduler Example.empty) (device Example.empty)
              (base (query_pools Example.empty)) (1, 0))
    as (_ & _ & c & index & w' & Hrun & _ & Hp & _ & _ & _ & _ & Hused).
  - simpl. unfold Tickets_ok. simpl. lia.
  - reflexivity.
  - by exists c, index, w'.
Defined.


(** A second counter built in [empty] while the first one lives. *)
Lemma live_counters_hold_different_slots_witness :
  query Example.first_counter ≠ query (Example.counter 1).
Proof.
  apply (live_counters_hold_different_slots 2 (LAWS := laws)
           two_pos two_u32 3 None SamplesPassed None SamplesPassed
           [CallEndQuery] Example.empty Example.first_counter
           (new 3 None SamplesPassed Example.empty).2
           (Example.counter 1)
           (new 3 None SamplesPassed
              (HostCounter_calls Example.first_counter [CallEndQuery]
                 (new 3 None SamplesPassed Example.empty).2)).2).
  - exact Example_empty_ok.
  - vm_compute. reflexivity.
  - vm_compute. reflexivity.
  - apply (bool_decide_unpack _). vm_compute. exact I.
Defined.

(** The counter built in [empty], ended, read and ended again. *)
Lemma HostCounter_life_records_witness :
  recorded
    (new_events Example.empty
       (HostCounter_calls Example.first_counter
          [CallEndQuery; CallBlockingQuery; CallEndQuery]
          (new 3 None SamplesPassed Example.empty).2))
  = [CmdResetQueryPoolEXT 1 0 1;
     CmdBeginQuery 1 0 VK_QUERY_CONTROL_PRECISE_BIT;
     CmdEndQuery 1 0; CmdEndQuery 1 0].
Proof.
  apply (HostCounter_life_records 2 3 None SamplesPassed
           [CallEndQuery; CallBlockingQuery; CallEndQuery] Example.empty
           Example.first_counter (new 3 None SamplesPassed Example.empty).2).
  vm_compute. reflexivity.
Defined.

(** The counter built in [empty], read, ended and read again: one flush. *)
Lemma HostCounter_life_flushes_once_witness :
  flushes
    (new_events Example.empty
       (HostCounter_calls Example.first_counter
          [CallBlockingQuery; CallEndQuery; CallBlockingQuery]
          (new 3 None SamplesPassed Example.empty).2))
  = 1%nat.
Proof.
  apply (HostCounter_life_flushes_once 2 3 None SamplesPassed
           [CallBlockingQuery; CallEndQuery; CallBlockingQuery] Example.empty
           Example.first_counter (new 3 None SamplesPassed Example.empty).2).
  - intros cmds s. reflexivity.
  - intros s. simpl. lia.
  - vm_compute. reflexivity.
Defined.

(** The two slots of [busy], released in either order. *)
Lemma Reserves_commute_witness :
  Reserve (1, 1) (Reserve (1, 0) (Example.busy VK_SUCCESS)).2
  = Reserve (1, 0) (Reserve (1, 1) (Example.busy VK_SUCCESS)).2.
Proof.
  apply (Reserves_commute 2 (1, 0) (1, 1) (Example.busy VK_SUCCESS)
           (Reserve (1, 0) (Example.busy VK_SUCCESS)).2
           (Reserve (1, 1) (Example.busy VK_SUCCESS)).2).
  - vm_compute. reflexivity.
  - vm_compute. reflexivity.
Defined.


End LifeWitnesses.
